(** * useLLM: the request lifecycle and the stream-read loop

    A shallow embedding of [send] and [readStream] of [src/useLLM.ts]
    (the current revision of the hook, the one with the [onComplete] and
    [onError] callbacks and the [conversation] argument), together with
    the platform objects they drive:
    JavaScript strings, [TextDecoder("utf-8")], the stream reader, the
    abort signal and the React state setters.

    - JavaScript strings are sequences of UTF-16 code units.
    - The setters ([setResponse], [setIdle], [setError], [setLastCallId]),
      the caller's callbacks and the calls on the reader are output
      events; the code never reads the hook state back, so a call is a
      computation in a writer monad over events and Call State is the
      fold of the events over the state the call started from.
    - [fetch], [reader.read()] and [signal.aborted] are inputs: a fetch
      outcome, a script of read results and an abort point. The script
      is finite: a stream that never ends has no terminal event to speak
      of.
    - A reply may come without a body; [readStream] is then handed
      [undefined] for its reader and every call of a method on it
      throws. The callbacks return normally. *)

From Stdlib Require Import ZArith Bool String Ascii Strings.Byte Lia DecimalString List.
Import ListNotations.
Open Scope Z_scope.

(** ** JavaScript strings *)

Module JS.

(** A string value: its UTF-16 code units, each in [0, 0xFFFF]. *)
Definition jsstring := list Z.

(** An ASCII string literal of the source. *)
Definition lit (s : string) : jsstring :=
  map (fun a => Z.of_N (N_of_ascii a)) (list_ascii_of_string s).

(** [s.startsWith(p)] *)
Fixpoint startsWith (s p : jsstring) : bool :=
  match p with
  | [] => true
  | c :: p' =>
      match s with
      | [] => false
      | d :: s' => (d =? c) && startsWith s' p'
      end
  end.

(** [s.substring(start)] for a non-negative [start]; past the end it is
    the empty string. *)
Definition substring (start : nat) (s : jsstring) : jsstring := skipn start s.

(** [a === b] on strings. *)
Definition strict_eq (a b : jsstring) : bool :=
  if list_eq_dec Z.eq_dec a b then true else false.

(** Truthiness of a string: only the empty string is falsy. *)
Definition truthy (s : jsstring) : bool :=
  match s with [] => false | _ :: _ => true end.

(** [String(n)] for an integer [n], as a template literal interpolates
    it. *)
Definition of_int (n : Z) : jsstring := lit (NilZero.string_of_int (Z.to_int n)).

(** [s.includes(p)], as a proposition. *)
Definition includes (s p : jsstring) : Prop :=
  exists pre post, s = pre ++ p ++ post.

End JS.
Import JS.

(** ** TextDecoder("utf-8")

    The decoder of the Encoding Standard, in its default error mode
    (replacement, not fatal) and with [ignoreBOM] false. *)

Module TextDecoder.

Definition byte_val (b : byte) : Z := Z.of_N (Byte.to_N b).

(** The state of the UTF-8 decoder. *)
Record Utf8 := {
  code_point : Z;
  bytes_seen : Z;
  bytes_needed : Z;
  lower_boundary : Z;
  upper_boundary : Z
}.

Definition utf8_new : Utf8 :=
  {| code_point := 0; bytes_seen := 0; bytes_needed := 0;
     lower_boundary := 0x80; upper_boundary := 0xBF |}.

Definition REPLACEMENT : Z := 0xFFFD.
Definition BOM : Z := 0xFEFF.

Definition between (lo hi b : Z) : bool := (lo <=? b) && (b <=? hi).

(** The handler on a byte when no sequence is open (bytes needed is 0). *)
Definition utf8_lead (b : Z) : list Z * Utf8 :=
  if between 0x00 0x7F b then ([b], utf8_new)
  else if between 0xC2 0xDF b then
    ([], {| code_point := Z.land b 0x1F; bytes_seen := 0; bytes_needed := 1;
            lower_boundary := 0x80; upper_boundary := 0xBF |})
  else if between 0xE0 0xEF b then
    ([], {| code_point := Z.land b 0xF; bytes_seen := 0; bytes_needed := 2;
            lower_boundary := if b =? 0xE0 then 0xA0 else 0x80;
            upper_boundary := if b =? 0xED then 0x9F else 0xBF |})
  else if between 0xF0 0xF4 b then
    ([], {| code_point := Z.land b 0x7; bytes_seen := 0; bytes_needed := 3;
            lower_boundary := if b =? 0xF0 then 0x90 else 0x80;
            upper_boundary := if b =? 0xF4 then 0x8F else 0xBF |})
  else ([REPLACEMENT], utf8_new).

(** The handler on a byte: the scalar values it emits and the next
    state. A byte outside the boundaries closes the open sequence with
    an error and is then handled again as a lead byte (the standard
    restores it to the queue). *)
Definition utf8_byte (st : Utf8) (b : Z) : list Z * Utf8 :=
  if bytes_needed st =? 0 then utf8_lead b
  else if negb (between (lower_boundary st) (upper_boundary st) b) then
    let '(out, st') := utf8_lead b in (REPLACEMENT :: out, st')
  else
    let cp := Z.lor (Z.shiftl (code_point st) 6) (Z.land b 0x3F) in
    let seen := bytes_seen st + 1 in
    if seen =? bytes_needed st then ([cp], utf8_new)
    else ([], {| code_point := cp; bytes_seen := seen;
                 bytes_needed := bytes_needed st;
                 lower_boundary := 0x80; upper_boundary := 0xBF |}).

(** The handler at end-of-queue: an open sequence is an error, and
    bytes needed goes back to 0. *)
Definition utf8_end (st : Utf8) : list Z * Utf8 :=
  if bytes_needed st =? 0 then ([], st)
  else ([REPLACEMENT],
        {| code_point := code_point st; bytes_seen := bytes_seen st;
           bytes_needed := 0;
           lower_boundary := lower_boundary st;
           upper_boundary := upper_boundary st |}).

Fixpoint utf8_bytes (st : Utf8) (bs : list Z) : list Z * Utf8 :=
  match bs with
  | [] => ([], st)
  | b :: bs' =>
      let '(out, st') := utf8_byte st b in
      let '(outs, st'') := utf8_bytes st' bs' in
      (out ++ outs, st'')
  end.

(** A decoder object: the UTF-8 state and the two flags of the standard. *)
Record t := {
  utf8 : Utf8;
  do_not_flush : bool;
  bom_seen : bool
}.

(** [new TextDecoder("utf-8")] *)
Definition new : t :=
  {| utf8 := utf8_new; do_not_flush := false; bom_seen := false |}.

(** Serialising the scalar values: a leading U+FEFF is dropped while no
    value was seen yet. *)
Definition strip_bom (seen : bool) (out : list Z) : list Z * bool :=
  match out with
  | [] => ([], seen)
  | c :: rest =>
      if seen then (out, true)
      else if c =? BOM then (rest, true) else (out, true)
  end.

(** A scalar value as UTF-16 code units. *)
Definition utf16 (cp : Z) : list Z :=
  if cp <=? 0xFFFF then [cp]
  else
    let v := cp - 0x10000 in
    [0xD800 + Z.shiftr v 10; 0xDC00 + Z.land v 0x3FF].

(** [decoder.decode(input, { stream })]; [input] is [None] for
    [undefined]. A decoder whose last call was not streaming starts
    afresh; the bytes are run through the handler; unless [stream] is
    set, the handler is also run on end-of-queue; the scalar values are
    serialised. *)
Definition decode (d : t) (input : option (list byte)) (stream : bool)
  : jsstring * t :=
  let st0 := if do_not_flush d then utf8 d else utf8_new in
  let seen0 := if do_not_flush d then bom_seen d else false in
  let bs := match input with Some v => map byte_val v | None => [] end in
  let '(out, st1) := utf8_bytes st0 bs in
  let '(out', st2) :=
    if stream then (out, st1)
    else (out ++ fst (utf8_end st1), snd (utf8_end st1)) in
  let '(vals, seen1) := strip_bom seen0 out' in
  (flat_map utf16 vals,
   {| utf8 := st2; do_not_flush := stream; bom_seen := seen1 |}).

End TextDecoder.

Definition bytes_of (s : string) : list byte := list_byte_of_string s.


(** ** Call State and the events of a call *)

(** The hook state the caller observes: [response], [idle], [error] and
    [lastCallId] of [useState]. *)
Record CallState := {
  response : jsstring;
  idle : bool;
  error : jsstring;
  lastCallId : jsstring
}.

(** The state of a fresh hook. *)
Definition initial : CallState :=
  {| response := []; idle := true; error := []; lastCallId := [] |}.

(** What a call does to the outside, in the order it does it. The
    callbacks are the caller's code: the model records the call and its
    argument. *)
Inductive Event :=
| SetResponse (s : jsstring)
| SetIdle (b : bool)
| SetError (s : jsstring)
| SetLastCallId (s : jsstring)
| Fetch (url : jsstring)
| ReaderRead
| ReaderCancel
| ReaderReleaseLock
| OnComplete (result : jsstring)
| OnError (err : jsstring)
| ConsoleError (s : jsstring).

(** The effect of one event on Call State: only the four setters write
    it. *)
Definition apply (st : CallState) (e : Event) : CallState :=
  match e with
  | SetResponse s =>
      {| response := s; idle := idle st; error := error st; lastCallId := lastCallId st |}
  | SetIdle b =>
      {| response := response st; idle := b; error := error st; lastCallId := lastCallId st |}
  | SetError s =>
      {| response := response st; idle := idle st; error := s; lastCallId := lastCallId st |}
  | SetLastCallId s =>
      {| response := response st; idle := idle st; error := error st; lastCallId := s |}
  | _ => st
  end.

(** Call State after a run of events. *)
Definition run (st : CallState) (tr : list Event) : CallState :=
  fold_left apply tr st.

(** ** The writer monad of a call *)

Definition M (A : Type) : Type := A * list Event.

Definition ret {A} (a : A) : M A := (a, []).

Definition bind {A B} (m : M A) (f : A -> M B) : M B :=
  let '(a, tr1) := m in
  let '(b, tr2) := f a in
  (b, tr1 ++ tr2).

Definition emit (e : Event) : M unit := (tt, [e]).

(** [if (c) effect;] *)
Definition when (c : bool) (m : M unit) : M unit := if c then m else ret tt.

Notation "x <- m ;; k" := (bind m (fun x => k))
  (at level 61, m at next level, right associativity).
Notation "m ;; k" := (bind m (fun _ => k))
  (at level 61, right associativity).

Definition value_of {A} (m : M A) : A := fst m.
Definition trace_of {A} (m : M A) : list Event := snd m.

(** ** The environment of a call *)

(** What [await reader.read()] gives: a fulfilled [{ value, done }]
    ([value] is [None] for [undefined]) or a rejection with an error
    object. *)
Inductive ReadResult :=
| Fulfilled (value : option (list byte)) (done : bool)
| Rejected (name message : jsstring).

(** The abort signal. JavaScript runs the loop body to completion
    between two awaits, so the signal can only flip while the call is
    suspended: [Some 0] is a signal already aborted when the loop starts,
    [Some (S i)] one aborted while read number [i] (from 0) is awaited,
    [None] one never aborted. *)
Definition Signal := option nat.

(** [signal.aborted] at the top of iteration [i]. *)
Definition aborted_at_top (sig : Signal) (i : nat) : bool :=
  match sig with Some k => (k <=? i)%nat | None => false end.

(** [signal.aborted] in the [finally] block of iteration [i]. *)
Definition aborted_in_finally (sig : Signal) (i : nat) : bool :=
  match sig with Some k => (k <=? S i)%nat | None => false end.

(** Which of the two optional callbacks the caller supplied. *)
Record Callbacks := {
  onComplete : bool;
  onError : bool
}.

(** ** readStream *)

Definition SENTINEL : jsstring := lit "Error:".

(** The variables of [readStream] that the loop updates, and the decoder
    object it was handed. *)
Record Locals := {
  decoder : TextDecoder.t;
  errorInRead : jsstring;
  result : jsstring
}.

Inductive Flow := Continue | Break.

(** The [try] block of one iteration, with its [catch]. *)
Definition try_block (stream : bool) (sig : Signal) (i : nat)
  (rd : ReadResult) (L : Locals) : M (Flow * Locals) :=
  if aborted_at_top sig i then
    emit ReaderCancel ;;
    ret (Break, L)
  else
    emit ReaderRead ;;
    match rd with
    | Fulfilled value done =>
        let '(decoded, dec) := TextDecoder.decode (decoder L) value false in
        let result' := result L ++ decoded in
        when stream (emit (SetResponse result')) ;;
        if startsWith decoded SENTINEL then
          ret (Break, {| decoder := dec; errorInRead := substring 6 decoded;
                         result := result' |})
        else
          ret (if done then Break else Continue,
               {| decoder := dec; errorInRead := errorInRead L; result := result' |})
    | Rejected name message =>
        ret (Break,
             if negb (strict_eq name (lit "AbortError")) then
               {| decoder := decoder L;
                  errorInRead := lit "Read error: " ++ message;
                  result := result L |}
             else L)
    end.

(** One iteration of [while (true)]: the [try] block, then [finally]. *)
Definition iteration (stream : bool) (sig : Signal) (i : nat)
  (rd : ReadResult) (L : Locals) : M (Flow * Locals) :=
  r <- try_block stream sig i rd L ;;
  when (aborted_in_finally sig i) (emit ReaderReleaseLock) ;;
  ret r.

(** A reader that has given all the results of its script is at
    end-of-stream. *)
Definition END_OF_STREAM : ReadResult := Fulfilled None true.

(** The loop, over the script of the results the reader will give. Once
    the script is used up every further read is [END_OF_STREAM], on which
    the body always breaks. *)
Fixpoint loop (stream : bool) (sig : Signal) (reads : list ReadResult)
  (i : nat) (L : Locals) : M Locals :=
  match reads with
  | [] =>
      r <- iteration stream sig i END_OF_STREAM L ;;
      ret (snd r)
  | rd :: rest =>
      r <- iteration stream sig i rd L ;;
      match fst r with
      | Break => ret (snd r)
      | Continue => loop stream sig rest (S i) (snd r)
      end
  end.

(** [readStream(reader, decoder, stream, { signal }, onComplete, onError)];
    the reader is its script. *)
Definition readStream (reads : list ReadResult) (dec : TextDecoder.t)
  (stream : bool) (sig : Signal) (cb : Callbacks) : M jsstring :=
  L <- loop stream sig reads 0
         {| decoder := dec; errorInRead := []; result := [] |} ;;
  emit (SetIdle true) ;;
  when (truthy (errorInRead L))
    (emit (SetError (errorInRead L)) ;;
     emit ReaderCancel ;;
     when (onError cb) (emit (OnError (errorInRead L)))) ;;
  when (onComplete cb) (emit (OnComplete (result L))) ;;
  ret (result L).

(** ** send *)

(** The response [fetch] resolves to: status line, the [x-callId] header
    and the body, as the script of its reader; [response.body] is [null]
    for a reply without a body (status 204 or 205), [None] here. *)
Record Response := {
  status : Z;
  statusText : jsstring;
  x_callId : option jsstring;
  body : option (list ReadResult)
}.

(** [response.ok]: the status is in the range 200 to 299. *)
Definition ok (r : Response) : bool := (200 <=? status r) && (status r <=? 299).

Inductive FetchResult :=
| Resolved (r : Response)
| FetchRejected (message : jsstring).

(** What the promise of [send] resolves to. *)
Inductive SendResult :=
| Reader
| Text (s : jsstring)
| Undefined.

Definition DEFAULT_URL : jsstring := lit "https://chat.llmasaservice.io/".

(** [a ?? b] *)
Definition nullish {A} (a : option A) (b : A) : A :=
  match a with Some x => x | None => b end.

(** The two template literals of [errorInFetch]. *)
Definition network_error_text (r : Response) : jsstring :=
  lit "Error: Network error for service. (" ++ of_int (status r)
    ++ lit " " ++ statusText r ++ lit ")".

Definition connect_error_text (message : jsstring) : jsstring :=
  lit "Error: Having trouble connecting to chat service. (" ++ message
    ++ lit ")".

(** The tail of [send] after the [try] statement. *)
Definition report_fetch_error (errorInFetch : jsstring) (cb : Callbacks) : M SendResult :=
  when (negb (strict_eq errorInFetch []))
    (emit (SetError errorInFetch) ;;
     when (onError cb) (emit (OnError errorInFetch)) ;;
     emit (ConsoleError (lit "Error: Error in fetch. (" ++ errorInFetch ++ lit ")"))) ;;
  ret Undefined.

(** The message of the [TypeError] a call of method [name] on
    [undefined] throws. The wording is the engine's; this is V8's. *)
Definition undefined_call_message (name : string) : jsstring :=
  lit "Cannot read properties of undefined (reading '" ++ lit name ++ lit "')".

(** [readStream] when [reader] is [undefined]: the run of the same
    function on a reply without a body. The value is the message of the
    [TypeError] its promise rejects with. Nothing is awaited, so the
    signal is what it was when the function was entered.
    - Signal aborted: [reader.cancel()] throws in [try], [catch] sets
      [errorInRead] and breaks, and [reader.releaseLock()] throws in
      [finally], out of the function.
    - Otherwise: [reader.read()] throws in [try], [catch] sets
      [errorInRead] to ["Read error: "] and the message and breaks;
      after the loop idle is set true and the error field written, and
      [reader.cancel()] throws before the callbacks are reached. *)
Definition readStream_no_reader (sig : Signal) : M jsstring :=
  if aborted_at_top sig 0 then
    ret (undefined_call_message "releaseLock")
  else
    emit (SetIdle true) ;;
    emit (SetError (lit "Read error: " ++ undefined_call_message "read")) ;;
    ret (undefined_call_message "cancel").

(** [send(prompt, messages, data, stream, ..., abortController,
    onComplete, onError)]. The request body is built from the arguments
    and sent along; only the outcome of [fetch] decides what follows.
    With [stream] true the call of [readStream] is not awaited: its
    events are those that follow the return of the reader. On a reply
    without a body [response?.body?.getReader()] is [undefined]: with
    [stream] false the rejection of [readStream] is caught by the
    [catch] of [send]; with [stream] true it is lost and [send] returns
    [reader], which is [undefined]. *)
Definition send (context_url : option jsstring) (net : FetchResult)
  (stream : bool) (sig : Signal) (cb : Callbacks) : M SendResult :=
  emit (SetResponse []) ;;
  emit (SetIdle false) ;;
  emit (Fetch (nullish context_url DEFAULT_URL)) ;;
  match net with
  | Resolved r =>
      if negb (ok r) then
        report_fetch_error (network_error_text r) cb
      else
        emit (SetLastCallId (nullish (x_callId r) [])) ;;
        emit (SetIdle false) ;;
        match body r with
        | Some reads =>
            if negb stream then
              s <- readStream reads TextDecoder.new stream sig cb ;;
              ret (Text s)
            else
              readStream reads TextDecoder.new stream sig cb ;;
              ret Reader
        | None =>
            if negb stream then
              message <- readStream_no_reader sig ;;
              report_fetch_error (connect_error_text message) cb
            else
              readStream_no_reader sig ;;
              ret Undefined
        end
  | FetchRejected message =>
      report_fetch_error (connect_error_text message) cb
  end.

(** ** Vocabulary of the properties *)

(** The text of one chunk decoded on its own by a fresh decoder. *)
Definition chunk_text (value : option (list byte)) : jsstring :=
  fst (TextDecoder.decode TextDecoder.new value false).

(** The decoded text a read contributes to [result]. *)
Definition text_of (rd : ReadResult) : jsstring :=
  match rd with
  | Fulfilled value _ => chunk_text value
  | Rejected _ _ => []
  end.

Definition texts (rds : list ReadResult) : jsstring := flat_map text_of rds.

(** A read after which the loop goes round again: fulfilled, not done,
    and its own text does not start with the sentinel. *)
Definition passes (rd : ReadResult) : bool :=
  match rd with
  | Fulfilled value false => negb (startsWith (chunk_text value) SENTINEL)
  | _ => false
  end.

(** The events of a run of passing reads, from the text accumulated so
    far. *)
Fixpoint passing_events (stream : bool) (acc : jsstring)
  (rds : list ReadResult) : list Event :=
  match rds with
  | [] => []
  | rd :: rest =>
      let acc' := acc ++ text_of rd in
      ReaderRead :: (if stream then [SetResponse acc'] else [])
        ++ passing_events stream acc' rest
  end.

Definition is_loop_event (e : Event) : bool :=
  match e with
  | SetResponse _ | ReaderRead | ReaderCancel | ReaderReleaseLock => true
  | _ => false
  end.

Definition is_on_complete (e : Event) : bool :=
  match e with OnComplete _ => true | _ => false end.

Definition is_on_error (e : Event) : bool :=
  match e with OnError _ => true | _ => false end.

Definition is_set_response (e : Event) : bool :=
  match e with SetResponse _ => true | _ => false end.

Definition is_set_idle (e : Event) : bool :=
  match e with SetIdle _ => true | _ => false end.

(** The variables of [readStream] when the loop starts. *)
Definition locals0 (dec : TextDecoder.t) : Locals :=
  {| decoder := dec; errorInRead := []; result := [] |}.

(** The part of [readStream] after the loop. *)
Definition finalize (cb : Callbacks) (L : Locals) : M jsstring :=
  emit (SetIdle true) ;;
  when (truthy (errorInRead L))
    (emit (SetError (errorInRead L)) ;;
     emit ReaderCancel ;;
     when (onError cb) (emit (OnError (errorInRead L)))) ;;
  when (onComplete cb) (emit (OnComplete (result L))) ;;
  ret (result L).

Definition error_events (cb : Callbacks) (e : jsstring) : list Event :=
  if truthy e
  then SetError e :: ReaderCancel :: (if onError cb then [OnError e] else [])
  else [].

Definition complete_events (cb : Callbacks) (s : jsstring) : list Event :=
  if onComplete cb then [OnComplete s] else [].

(** The events of the tail of [send] on an error text. *)
Definition fetch_error_events (cb : Callbacks) (e : jsstring) : list Event :=
  SetError e :: (if onError cb then [OnError e] else [])
    ++ [ConsoleError (lit "Error: Error in fetch. (" ++ e ++ lit ")")].

(** The error text of a call that does not get to read the stream. *)
Definition errorInFetch_of (net : FetchResult) : jsstring :=
  match net with
  | Resolved r => network_error_text r
  | FetchRejected message => connect_error_text message
  end.

(** Whether the call gets to read the stream. *)
Definition reaches_stream (net : FetchResult) : bool :=
  match net with
  | Resolved r => ok r
  | FetchRejected _ => false
  end.

(** Whether a call takes one of the paths that write the error field:
    [fetch] rejected, the status was not a success, the loop left a
    non-empty [errorInRead], or the reply had no body and either the
    signal was not aborted (the error block of [readStream] is reached)
    or the call is not streaming (the [catch] of [send] is reached). *)
Definition records_error (net : FetchResult) (stream : bool) (sig : Signal) : bool :=
  match net with
  | FetchRejected _ => true
  | Resolved r =>
      negb (ok r)
      || match body r with
         | Some reads =>
             truthy (errorInRead
                       (value_of (loop stream sig reads 0 (locals0 TextDecoder.new))))
         | None => negb (aborted_at_top sig 0) || negb stream
         end
  end.

(** The events of [send] after its first five on a reply without a
    body. *)
Definition no_body_events (stream : bool) (sig : Signal) (cb : Callbacks)
  : list Event :=
  trace_of (readStream_no_reader sig)
    ++ (if stream then []
        else fetch_error_events cb
               (connect_error_text (value_of (readStream_no_reader sig)))).

(** The decoding strategy the design notes ask for, to compare the loop
    with: one decoder, every chunk decoded with [{ stream: true }], and a
    last [decode()] to flush it at end-of-stream. *)
Fixpoint decode_streaming (d : TextDecoder.t) (chunks : list (list byte)) : jsstring :=
  match chunks with
  | [] => fst (TextDecoder.decode d None false)
  | c :: rest =>
      let '(s, d') := TextDecoder.decode d (Some c) true in
      s ++ decode_streaming d' rest
  end.

(** ** Inputs of the scenarios *)

Definition chunk (s : string) : ReadResult := Fulfilled (Some (bytes_of s)) false.

Definition both : Callbacks := {| onComplete := true; onError := true |}.

Definition response_200 (b : list ReadResult) : Response :=
  {| status := 200; statusText := lit "OK"; x_callId := None; body := Some b |}.

Definition response_503 : Response :=
  {| status := 503; statusText := lit "Service Unavailable";
     x_callId := None; body := Some [] |}.


Definition response_500 : Response :=
  {| status := 500; statusText := lit "Internal Server Error";
     x_callId := None; body := Some [] |}.

(** ** The configuration of the hook *)

(** A value that may be [undefined] or [null]. *)
Inductive jsopt (A : Type) :=
| JUndefined
| JNull
| JVal (a : A).
Arguments JUndefined {A}.
Arguments JNull {A}.
Arguments JVal {A} a.

(** What [??] and [?.] look at: [undefined] and [null] are both nullish. *)
Definition to_option {A} (x : jsopt A) : option A :=
  match x with
  | JVal a => Some a
  | _ => None
  end.

(** [LLMAsAServiceCustomer] *)
Record LLMAsAServiceCustomer := {
  customer_id : jsstring;
  customer_name : option jsstring;
  customer_user_id : option jsstring;
  customer_user_email : option jsstring
}.

(** [LLMServiceType]: [project_id] is a string or [undefined],
    [customer] is optional, [url] and [agent] are optional and may be
    [null]. *)
Record LLMServiceType := {
  project_id : option jsstring;
  customer : option LLMAsAServiceCustomer;
  url : jsopt jsstring;
  agent : jsopt jsstring
}.

(** The value [LLMServiceProvider] puts in the context: the default
    values of the destructured props stand in for [undefined] only. *)
Definition LLMServiceProvider (props : LLMServiceType) : LLMServiceType :=
  {| project_id := project_id props;
     customer := customer props;
     url := match url props with
            | JUndefined => JVal DEFAULT_URL
            | u => u
            end;
     agent := match agent props with
              | JUndefined => JNull
              | a => a
              end |}.

Definition NO_CONTEXT : jsstring :=
  lit "useLLM must be used within a LLMServiceProvider or constructed with options in your useLLM() call.".

(** The head of [useLLM(options)]: the context of the nearest provider,
    else the options, else an [Error] is thrown. [ambient] is what
    [useContext(LLMService)] returns. *)
Definition useLLM_context (ambient options : option LLMServiceType)
  : LLMServiceType + jsstring :=
  match ambient with
  | Some c => inl c
  | None =>
      match options with
      | Some c => inl c
      | None => inr NO_CONTEXT
      end
  end.

(** [send] of the hook: the [send] above on [context?.url]. *)
Definition hook_send (context : LLMServiceType) (net : FetchResult)
  (stream : bool) (sig : Signal) (cb : Callbacks) : M SendResult :=
  send (to_option (url context)) net stream sig cb.

(** ** The first revision of the hook

    The file also holds the first revision of [send] and [readStream],
    without callbacks and without the correlation id. *)

Module V1.

(** The [try] block of one iteration, with its [catch]. Each
    [decoder.decode(value)] is a call of its own on the decoder. The
    updater handed to [setResponse] returns the variable [result]; the
    event records the call with the text [result] holds at the call. *)
Definition try_block (stream : bool) (sig : Signal) (i : nat)
  (rd : ReadResult) (L : Locals) : M (Flow * Locals) :=
  if aborted_at_top sig i then
    emit ReaderCancel ;;
    emit (SetIdle true) ;;
    ret (Break, L)
  else
    emit ReaderRead ;;
    match rd with
    | Fulfilled value done =>
        let '(tested, dec1) := TextDecoder.decode (decoder L) value false in
        if startsWith tested SENTINEL then
          let '(decoded, dec2) := TextDecoder.decode dec1 value false in
          ret (Break, {| decoder := dec2; errorInRead := substring 6 decoded;
                         result := result L |})
        else if done then
          emit (SetIdle true) ;;
          ret (Break, {| decoder := dec1; errorInRead := errorInRead L;
                         result := result L |})
        else
          let '(decoded, dec2) := TextDecoder.decode dec1 value false in
          let result' := result L ++ decoded in
          when stream (emit (SetResponse result')) ;;
          ret (Continue,
               {| decoder := dec2; errorInRead := errorInRead L; result := result' |})
    | Rejected name message =>
        ret (Break,
             if strict_eq name (lit "AbortError") then L
             else
               {| decoder := decoder L;
                  errorInRead := lit "Reading error  " ++ message;
                  result := result L |})
    end.

Definition iteration (stream : bool) (sig : Signal) (i : nat)
  (rd : ReadResult) (L : Locals) : M (Flow * Locals) :=
  r <- try_block stream sig i rd L ;;
  when (aborted_in_finally sig i) (emit ReaderReleaseLock) ;;
  ret r.

Fixpoint loop (stream : bool) (sig : Signal) (reads : list ReadResult)
  (i : nat) (L : Locals) : M Locals :=
  match reads with
  | [] =>
      r <- iteration stream sig i END_OF_STREAM L ;;
      ret (snd r)
  | rd :: rest =>
      r <- iteration stream sig i rd L ;;
      match fst r with
      | Break => ret (snd r)
      | Continue => loop stream sig rest (S i) (snd r)
      end
  end.

(** [readStream(reader, decoder, stream, { signal })] *)
Definition readStream (reads : list ReadResult) (dec : TextDecoder.t)
  (stream : bool) (sig : Signal) : M jsstring :=
  L <- loop stream sig reads 0
         {| decoder := dec; errorInRead := []; result := [] |} ;;
  when (negb (strict_eq (errorInRead L) []))
    (emit (SetError (errorInRead L)) ;;
     emit ReaderCancel ;;
     emit (SetIdle true)) ;;
  ret (result L).

(** [readStream] when [reader] is [undefined] (a reply without a body);
    the value is the message of the [TypeError] its promise rejects with.
    - Signal aborted: [reader.cancel()] throws in [try], [catch] sets
      [errorInRead], and [reader.releaseLock()] throws in [finally].
    - Otherwise: [reader.read()] throws in [try], [catch] sets
      [errorInRead]; after the loop the error field is written and
      [reader.cancel()] throws before [setIdle(true)]. *)
Definition readStream_no_reader (sig : Signal) : M jsstring :=
  if aborted_at_top sig 0 then
    ret (undefined_call_message "releaseLock")
  else
    emit (SetError (lit "Reading error  " ++ undefined_call_message "read")) ;;
    ret (undefined_call_message "cancel").

(** The tail of [send] after the [try] statement. *)
Definition report_fetch_error (errorInFetch : jsstring) : M SendResult :=
  when (negb (strict_eq errorInFetch []))
    (emit (SetError errorInFetch) ;;
     emit (ConsoleError (lit "Error: Error in fetch. (" ++ errorInFetch ++ lit ")"))) ;;
  ret Undefined.

(** [send(prompt, messages, stream, abortController, service)]. With
    [stream] false the text is published when [readStream] is done and
    the function runs to its end. On a reply without a body the
    rejection of [readStream] is caught by the [catch] of [send] when
    it is awaited, and lost otherwise, [send] returning [reader], which
    is [undefined]. *)
Definition send (context_url : option jsstring) (net : FetchResult)
  (stream : bool) (sig : Signal) : M SendResult :=
  emit (SetResponse []) ;;
  emit (SetIdle false) ;;
  emit (Fetch (nullish context_url DEFAULT_URL)) ;;
  match net with
  | Resolved r =>
      if negb (ok r) then
        report_fetch_error (network_error_text r)
      else
        emit (SetIdle false) ;;
        match body r with
        | Some reads =>
            if negb stream then
              s <- readStream reads TextDecoder.new stream sig ;;
              emit (SetResponse s) ;;
              report_fetch_error []
            else
              readStream reads TextDecoder.new stream sig ;;
              ret Reader
        | None =>
            if negb stream then
              message <- readStream_no_reader sig ;;
              report_fetch_error (connect_error_text message)
            else
              readStream_no_reader sig ;;
              ret Undefined
        end
  | FetchRejected message =>
      report_fetch_error (connect_error_text message)
  end.

End V1.

(** ** More vocabulary *)

Definition is_set_error (e : Event) : bool :=
  match e with SetError _ => true | _ => false end.

Definition is_reader_read (e : Event) : bool :=
  match e with ReaderRead => true | _ => false end.

Definition is_release_lock (e : Event) : bool :=
  match e with ReaderReleaseLock => true | _ => false end.

Definition is_reader_cancel (e : Event) : bool :=
  match e with ReaderCancel => true | _ => false end.

Definition is_set_call_id (e : Event) : bool :=
  match e with SetLastCallId _ => true | _ => false end.

(** The on-error call that goes with a write to the error field. *)
Definition as_on_error (e : Event) : Event :=
  match e with SetError s => OnError s | _ => e end.

(** Whether the call got a success reply without a body. *)
Definition no_body (net : FetchResult) : bool :=
  match net with
  | Resolved r =>
      ok r && match body r with Some _ => false | None => true end
  | FetchRejected _ => false
  end.

(** The texts handed to [setResponse], in order. *)
Definition published (tr : list Event) : list jsstring :=
  flat_map (fun e => match e with SetResponse s => [s] | _ => [] end) tr.

(** Each text of the list extends the one before it, the first extends
    [base], and [final] extends the last. *)
Fixpoint grows_to (base : jsstring) (l : list jsstring) (final : jsstring) : Prop :=
  match l with
  | [] => exists d, final = base ++ d
  | s :: l' => (exists d, s = base ++ d) /\ grows_to s l' final
  end.

(** A byte below 0x80. *)
Definition is_ascii (b : byte) : bool := TextDecoder.byte_val b <? 0x80.

(** The script of a body that delivers the chunks and then ends. *)
Definition chunks_script (chunks : list (list byte)) : list ReadResult :=
  map (fun c => Fulfilled (Some c) false) chunks.

Ltac unfold_m := unfold bind, ret, emit, when, value_of, trace_of in *.

(** * Properties *)

(** ** The monad *)

Lemma trace_bind {A B} (m : M A) (f : A -> M B) :
  trace_of (bind m f) = trace_of m ++ trace_of (f (value_of m)).
Proof. unfold_m. destruct m as [a tr1]. cbn. now destruct (f a). Qed.

Lemma value_bind {A B} (m : M A) (f : A -> M B) :
  value_of (bind m f) = value_of (f (value_of m)).
Proof. unfold_m. destruct m as [a tr1]. cbn. now destruct (f a). Qed.

Lemma run_app st tr1 tr2 : run st (tr1 ++ tr2) = run (run st tr1) tr2.
Proof. apply fold_left_app. Qed.

(** ** The decoder as the loop calls it *)

Example decode_ascii : chunk_text (Some (bytes_of "pong")) = lit "pong".
Proof. reflexivity. Qed.

Example decode_two_bytes : chunk_text (Some [xc3; xa9]) = [0xE9].
Proof. reflexivity. Qed.

Example decode_four_bytes :
  chunk_text (Some [xf0; x9f; x98; x80]) = [0xD83D; 0xDE00].
Proof. reflexivity. Qed.

Example decode_overlong : chunk_text (Some [xc0; x80]) = [0xFFFD; 0xFFFD].
Proof. reflexivity. Qed.

Example decode_bom : chunk_text (Some [xef; xbb; xbf; x61]) = lit "a".
Proof. reflexivity. Qed.

Example of_int_503 : of_int 503 = lit "503".
Proof. reflexivity. Qed.

(** The loop never passes [{ stream: true }], so every [decode] starts
    from a reset decoder and leaves a decoder that will reset again. *)
Lemma decode_resets (d : TextDecoder.t) (value : option (list byte)) :
  TextDecoder.do_not_flush d = false ->
  fst (TextDecoder.decode d value false) = chunk_text value /\
  TextDecoder.do_not_flush (snd (TextDecoder.decode d value false)) = false.
Proof.
  intros Hd. unfold chunk_text, TextDecoder.decode. rewrite Hd.
  cbn [TextDecoder.do_not_flush TextDecoder.new].
  destruct (TextDecoder.utf8_bytes _ _) as [out st1].
  destruct (TextDecoder.strip_bom _ _) as [vals seen1]. split; reflexivity.
Qed.

(** ** Events of the loop and of the finalization *)

Lemma iteration_events stream sig i rd L :
  forallb is_loop_event (trace_of (iteration stream sig i rd L)) = true.
Proof.
  unfold iteration, try_block. unfold_m.
  destruct (aborted_at_top sig i), (aborted_in_finally sig i), stream;
    try reflexivity;
    (destruct rd as [value done | name message]; [| reflexivity]);
    destruct (TextDecoder.decode _ _ _) as [decoded dec];
    destruct (startsWith decoded SENTINEL); reflexivity.
Qed.

Lemma loop_events stream sig reads :
  forall i L, forallb is_loop_event (trace_of (loop stream sig reads i L)) = true.
Proof.
  induction reads as [| rd rest IH]; intros i L; cbn [loop].
  - rewrite trace_bind. cbn. rewrite app_nil_r. apply iteration_events.
  - rewrite trace_bind, forallb_app, iteration_events.
    destruct (fst _); [apply IH | reflexivity].
Qed.

Lemma finalize_eq cb L :
  finalize cb L =
  (result L,
   SetIdle true :: error_events cb (errorInRead L) ++ complete_events cb (result L)).
Proof.
  unfold finalize, error_events, complete_events. unfold_m.
  destruct (truthy (errorInRead L)), (onError cb), (onComplete cb); reflexivity.
Qed.

Lemma readStream_finalize reads dec stream sig cb :
  readStream reads dec stream sig cb =
  (L <- loop stream sig reads 0 (locals0 dec) ;; finalize cb L).
Proof. reflexivity. Qed.

Lemma readStream_value reads dec stream sig cb :
  value_of (readStream reads dec stream sig cb) =
  result (value_of (loop stream sig reads 0 (locals0 dec))).
Proof. rewrite readStream_finalize, value_bind, finalize_eq. reflexivity. Qed.

Lemma readStream_trace reads dec stream sig cb :
  trace_of (readStream reads dec stream sig cb) =
  trace_of (loop stream sig reads 0 (locals0 dec))
    ++ SetIdle true
    :: error_events cb (errorInRead (value_of (loop stream sig reads 0 (locals0 dec))))
    ++ complete_events cb (result (value_of (loop stream sig reads 0 (locals0 dec)))).
Proof. rewrite readStream_finalize, trace_bind, finalize_eq. reflexivity. Qed.

Lemma filter_loop_events (f : Event -> bool) (tr : list Event) :
  (forall e, is_loop_event e = true -> f e = false) ->
  forallb is_loop_event tr = true -> filter f tr = [].
Proof.
  intros Hf. induction tr as [| e tr IH]; cbn; [reflexivity |].
  intros H. apply andb_prop in H as [He Htr].
  rewrite (Hf e He). auto.
Qed.


(** The events of [send] when [fetch] resolved to a success status and
    the reply has a body. *)
Lemma send_ok_trace ctx r reads stream sig cb :
  ok r = true ->
  body r = Some reads ->
  trace_of (send ctx (Resolved r) stream sig cb) =
  [SetResponse []; SetIdle false; Fetch (nullish ctx DEFAULT_URL);
   SetLastCallId (nullish (x_callId r) []); SetIdle false]
    ++ trace_of (readStream reads TextDecoder.new stream sig cb).
Proof.
  intros Hok Hbody. unfold send. rewrite Hok, Hbody. cbn [negb].
  destruct stream; cbn [negb]; repeat rewrite trace_bind; cbn;
    now rewrite app_nil_r.
Qed.

Lemma send_ok_value ctx r reads stream sig cb :
  ok r = true ->
  body r = Some reads ->
  value_of (send ctx (Resolved r) stream sig cb) =
  if stream then Reader
  else Text (value_of (readStream reads TextDecoder.new stream sig cb)).
Proof.
  intros Hok Hbody. unfold send. rewrite Hok, Hbody. cbn [negb].
  destruct stream; cbn [negb]; repeat rewrite value_bind; reflexivity.
Qed.

Lemma errorInFetch_not_empty net : errorInFetch_of net <> [].
Proof. destruct net; discriminate. Qed.

Lemma report_fetch_error_eq e cb :
  e <> [] -> report_fetch_error e cb = (Undefined, fetch_error_events cb e).
Proof.
  intros He. unfold report_fetch_error, fetch_error_events, strict_eq.
  destruct (list_eq_dec Z.eq_dec e []) as [-> | _]; [contradiction |].
  unfold_m. destruct (onError cb); reflexivity.
Qed.

(** The events of [send] when the stream is not reached. *)
Lemma send_failed ctx net stream sig cb :
  reaches_stream net = false ->
  send ctx net stream sig cb =
  (Undefined,
   [SetResponse []; SetIdle false; Fetch (nullish ctx DEFAULT_URL)]
     ++ fetch_error_events cb (errorInFetch_of net)).
Proof.
  intros H. pose proof (report_fetch_error_eq _ cb (errorInFetch_not_empty net)) as E.
  unfold send. destruct net as [r | message]; cbn in H, E |- *.
  - rewrite H. cbn [negb]. rewrite E. reflexivity.
  - rewrite E. reflexivity.
Qed.

Lemma connect_error_not_empty message : connect_error_text message <> [].
Proof. discriminate. Qed.

(** [send] on a success reply without a body. *)
Lemma send_no_body ctx r stream sig cb :
  ok r = true ->
  body r = None ->
  send ctx (Resolved r) stream sig cb =
  (Undefined,
   [SetResponse []; SetIdle false; Fetch (nullish ctx DEFAULT_URL);
    SetLastCallId (nullish (x_callId r) []); SetIdle false]
     ++ no_body_events stream sig cb).
Proof.
  intros Hok Hbody. unfold send, no_body_events. rewrite Hok, Hbody. cbn [negb].
  destruct (readStream_no_reader sig) as [message tr].
  cbn [value_of trace_of fst snd].
  destruct stream; cbn [negb]; unfold bind; cbn beta iota.
  - unfold emit, ret. cbn. now rewrite !app_nil_r.
  - rewrite (report_fetch_error_eq _ cb (connect_error_not_empty message)).
    unfold emit. cbn. reflexivity.
Qed.

(** ** The four ways out of the loop *)

Example path_completed :
  readStream [chunk "pon"; chunk "g"] TextDecoder.new true None both =
  (lit "pong",
   [ReaderRead; SetResponse (lit "pon"); ReaderRead; SetResponse (lit "pong");
    ReaderRead; SetResponse (lit "pong"); SetIdle true; OnComplete (lit "pong")]).
Proof. reflexivity. Qed.

Example path_sentinel :
  readStream [chunk "pon"; chunk "Error: overloaded"; chunk "g"]
    TextDecoder.new false None both =
  (lit "ponError: overloaded",
   [ReaderRead; ReaderRead; SetIdle true; SetError (lit " overloaded");
    ReaderCancel; OnError (lit " overloaded");
    OnComplete (lit "ponError: overloaded")]).
Proof. reflexivity. Qed.

Example path_read_error :
  readStream [chunk "pon"; Rejected (lit "TypeError") (lit "network error")]
    TextDecoder.new true None both =
  (lit "pon",
   [ReaderRead; SetResponse (lit "pon"); ReaderRead; SetIdle true;
    SetError (lit "Read error: network error"); ReaderCancel;
    OnError (lit "Read error: network error"); OnComplete (lit "pon")]).
Proof. reflexivity. Qed.

Example path_cancelled :
  readStream [chunk "pon"; Rejected (lit "AbortError") (lit "aborted"); chunk "g"]
    TextDecoder.new true (Some 2%nat) both =
  (lit "pon",
   [ReaderRead; SetResponse (lit "pon"); ReaderRead; ReaderReleaseLock;
    SetIdle true; OnComplete (lit "pon")]).
Proof. reflexivity. Qed.

(** ** Completion callback *)



(** ** Cancellation before the first read *)

(** C7: when the signal is already aborted as the loop starts, the loop
    reads nothing: [readStream] returns the empty text, its events are
    the cancel and release of the reader, [setIdle(true)] and, when
    supplied, on-complete with the empty string; idle ends true and
    on-error is not called. *)
Theorem cancelled_before_first_read reads dec stream cb st :
  value_of (readStream reads dec stream (Some 0%nat) cb) = [] /\
  trace_of (readStream reads dec stream (Some 0%nat) cb) =
    [ReaderCancel; ReaderReleaseLock; SetIdle true]
      ++ (if onComplete cb then [OnComplete []] else []) /\
  idle (run st (trace_of (readStream reads dec stream (Some 0%nat) cb))) = true /\
  filter is_on_error (trace_of (readStream reads dec stream (Some 0%nat) cb)) = [].
Proof.
  destruct reads as [| rd rest], cb as [[|] onE]; repeat split; reflexivity.
Qed.

(** The same holds when the abort comes while the first read is awaited
    and the read rejects with an [AbortError]. *)
Lemma cancelled_during_first_read message rest dec stream cb :
  readStream (Rejected (lit "AbortError") message :: rest) dec stream (Some 1%nat) cb =
  ([], [ReaderRead; ReaderReleaseLock; SetIdle true]
         ++ (if onComplete cb then [OnComplete []] else [])).
Proof. destruct cb as [[|] onE]; reflexivity. Qed.

(** ** The rate-limit scenario *)

Lemma rate_limited_not_stripped :
  ~ In (OnError (lit "rate limited"))
       (trace_of (readStream [chunk "Error: rate limited"] TextDecoder.new
                    true None both)).
Proof.
  intros H. vm_compute in H.
  repeat (destruct H as [H | H]; [discriminate H |]). exact H.
Qed.

(** C8 (amended): on the single chunk ["Error: rate limited"], on-error
    is called once, with the chunk's text after its first 6 code units,
    [" rate limited"], the space after the colon included; on-complete
    is called once with the full text of the chunk. *)
Theorem rate_limited_scenario stream :
  filter is_on_error
    (trace_of (readStream [chunk "Error: rate limited"] TextDecoder.new
                 stream None both)) =
    [OnError (lit " rate limited")] /\
  filter is_on_complete
    (trace_of (readStream [chunk "Error: rate limited"] TextDecoder.new
                 stream None both)) =
    [OnComplete (lit "Error: rate limited")].
Proof. destruct stream; split; reflexivity. Qed.

(** ** Non-streaming calls *)

Lemma response_run_unpublished tr :
  forall st, forallb (fun e => negb (is_set_response e)) tr = true ->
  response (run st tr) = response st.
Proof.
  induction tr as [| e tr IH]; intros st H; [reflexivity |].
  cbn in H. apply andb_prop in H as [He Htr].
  cbn [run fold_left]. change (fold_left apply tr (apply st e)) with (run (apply st e) tr).
  rewrite (IH _ Htr). now destruct e.
Qed.

Lemma iteration_unpublished sig i rd L :
  forallb (fun e => negb (is_set_response e))
    (trace_of (iteration false sig i rd L)) = true.
Proof.
  unfold iteration, try_block. unfold_m.
  destruct (aborted_at_top sig i), (aborted_in_finally sig i);
    try reflexivity;
    (destruct rd as [value done | name message]; [| reflexivity]);
    destruct (TextDecoder.decode _ _ _) as [decoded dec];
    destruct (startsWith decoded SENTINEL); reflexivity.
Qed.

Lemma loop_unpublished sig reads :
  forall i L,
  forallb (fun e => negb (is_set_response e))
    (trace_of (loop false sig reads i L)) = true.
Proof.
  induction reads as [| rd rest IH]; intros i L; cbn [loop].
  - rewrite trace_bind. cbn. rewrite app_nil_r. apply iteration_unpublished.
  - rewrite trace_bind, forallb_app, iteration_unpublished.
    destruct (fst _); [apply IH | reflexivity].
Qed.

(** With [stream] false the only [setResponse] of a call is the reset at
    its start. *)
Lemma send_non_streaming_unpublished ctx net sig cb :
  exists rest,
    trace_of (send ctx net false sig cb) = SetResponse [] :: rest /\
    forallb (fun e => negb (is_set_response e)) rest = true.
Proof.
  destruct (reaches_stream net) eqn:Hnet.
  - destruct net as [r | message]; [| discriminate Hnet]. cbn in Hnet.
    destruct (body r) as [reads |] eqn:Hbody.
    + rewrite (send_ok_trace _ _ _ _ _ _ Hnet Hbody), readStream_trace.
      eexists; split; [reflexivity |].
      cbn [app forallb is_set_response negb andb].
      rewrite forallb_app, loop_unpublished.
      unfold error_events, complete_events.
      destruct (truthy _), (onError cb), (onComplete cb); reflexivity.
    + rewrite (send_no_body _ _ _ _ _ Hnet Hbody).
      eexists; split; [reflexivity |].
      unfold no_body_events, readStream_no_reader, fetch_error_events.
      destruct (aborted_at_top sig 0), (onError cb); reflexivity.
  - rewrite (send_failed _ _ _ _ _ Hnet).
    eexists; split; [reflexivity |].
    unfold fetch_error_events. destruct (onError cb); reflexivity.
Qed.

(** C2, on the code: a non-streaming call never publishes the text it
    assembled. For the response with the single chunk ["pong"] the call
    returns ["pong"] and hands ["pong"] to on-complete, but the response
    field of Call State is the empty string when the call is over, as it
    is after every non-streaming call. *)
Theorem non_streaming_text_unpublished ctx net sig cb st :
  value_of (send ctx (Resolved (response_200 [chunk "pong"])) false None both)
    = Text (lit "pong") /\
  filter is_on_complete
    (trace_of (send ctx (Resolved (response_200 [chunk "pong"])) false None both))
    = [OnComplete (lit "pong")] /\
  response
    (run st (trace_of (send ctx (Resolved (response_200 [chunk "pong"])) false None both)))
    = [] /\
  response (run st (trace_of (send ctx net false sig cb))) = [].
Proof.
  repeat split; try reflexivity.
  destruct (send_non_streaming_unpublished ctx net sig cb) as (rest & -> & Hrest).
  cbn [run fold_left].
  change (fold_left apply rest ?s) with (run s rest).
  now rewrite (response_run_unpublished _ _ Hrest).
Qed.

(** ** Calls that fail before the stream is read *)

(** Every path through [readStream] sets idle once, to true. *)
Lemma readStream_sets_idle_once reads dec stream sig cb :
  filter is_set_idle (trace_of (readStream reads dec stream sig cb)) = [SetIdle true].
Proof.
  rewrite readStream_trace, filter_app.
  rewrite (filter_loop_events is_set_idle);
    [| now intros [] | apply loop_events].
  cbn [app filter is_set_idle]. rewrite filter_app.
  unfold error_events, complete_events.
  destruct (truthy _), (onError cb), (onComplete cb); reflexivity.
Qed.

(** C3, on the code: a call that gets to read the stream sets idle true
    once, on whichever path the loop is left; but when [fetch] rejects,
    and when it resolves to status 503, the only write to idle is the
    [setIdle(false)] at the start of the call, and Call State is left
    with idle false. *)
Theorem idle_stuck_after_fetch_error ctx message reads stream sig cb st :
  filter is_set_idle (trace_of (readStream reads TextDecoder.new stream sig cb))
    = [SetIdle true] /\
  filter is_set_idle (trace_of (send ctx (FetchRejected message) stream sig cb))
    = [SetIdle false] /\
  idle (run st (trace_of (send ctx (FetchRejected message) stream sig cb))) = false /\
  filter is_set_idle (trace_of (send ctx (Resolved response_503) stream sig cb))
    = [SetIdle false] /\
  idle (run st (trace_of (send ctx (Resolved response_503) stream sig cb))) = false.
Proof.
  split; [apply readStream_sets_idle_once |].
  rewrite !send_failed by reflexivity.
  unfold fetch_error_events, trace_of.
  destruct (onError cb); repeat split; reflexivity.
Qed.

(** C4, on the code: on status 503 [send] resolves to [undefined], reads
    nothing from the body, writes to the error field a text that holds
    ["503"] and calls on-error with it; but idle is false when the call
    is over. *)
Theorem status_503_scenario ctx stream sig st :
  value_of (send ctx (Resolved response_503) stream sig both) = Undefined /\
  includes (lit "Error: Network error for service. (503 Service Unavailable)")
           (lit "503") /\
  error (run st (trace_of (send ctx (Resolved response_503) stream sig both)))
    = lit "Error: Network error for service. (503 Service Unavailable)" /\
  filter is_on_error (trace_of (send ctx (Resolved response_503) stream sig both))
    = [OnError (lit "Error: Network error for service. (503 Service Unavailable)")] /\
  ~ In ReaderRead (trace_of (send ctx (Resolved response_503) stream sig both)) /\
  idle (run st (trace_of (send ctx (Resolved response_503) stream sig both))) = false.
Proof.
  repeat split; try reflexivity.
  - exists (lit "Error: Network error for service. ("), (lit " Service Unavailable)").
    reflexivity.
  - intros H. cbn in H.
    repeat (destruct H as [H | H]; [discriminate H |]). exact H.
Qed.

(** ** Characters split across chunks *)

(** C5, on the code: the two bytes of U+00E9 arriving as two chunks come
    out of the loop as two replacement characters, where decoding the
    same bytes in one piece, or chunk by chunk with [{ stream: true }],
    gives the character. *)
Theorem split_character_is_replaced :
  value_of (readStream [Fulfilled (Some [xc3]) false; Fulfilled (Some [xa9]) false]
              TextDecoder.new true None both)
    = [0xFFFD; 0xFFFD] /\
  chunk_text (Some ([xc3] ++ [xa9])) = [0xE9] /\
  decode_streaming TextDecoder.new [[xc3]; [xa9]] = [0xE9].
Proof. repeat split; reflexivity. Qed.

(** ** The sentinel *)

Lemma not_aborted_earlier sig i n :
  aborted_at_top sig (i + S n) = false ->
  aborted_at_top sig i = false /\
  aborted_in_finally sig i = false /\
  aborted_at_top sig (S i + n) = false.
Proof.
  destruct sig as [k |]; cbn [aborted_at_top aborted_in_finally]; [| auto].
  rewrite !Nat.leb_gt. lia.
Qed.

Lemma iteration_passes stream sig i rd L :
  passes rd = true ->
  aborted_at_top sig i = false ->
  aborted_in_finally sig i = false ->
  TextDecoder.do_not_flush (decoder L) = false ->
  exists d',
    TextDecoder.do_not_flush d' = false /\
    iteration stream sig i rd L =
    ((Continue,
      {| decoder := d'; errorInRead := errorInRead L;
         result := result L ++ text_of rd |}),
     ReaderRead :: (if stream then [SetResponse (result L ++ text_of rd)] else [])).
Proof.
  intros Hp Htop Hfin Hd.
  destruct rd as [value [|] | name message]; try discriminate Hp.
  cbn [passes] in Hp. apply negb_true_iff in Hp.
  destruct (decode_resets (decoder L) value Hd) as [Etext Eflag].
  unfold iteration, try_block. rewrite Htop, Hfin.
  destruct (TextDecoder.decode (decoder L) value false) as [decoded dec].
  cbn [fst snd] in Etext, Eflag. subst decoded. rewrite Hp.
  exists dec. split; [assumption |].
  destruct stream; reflexivity.
Qed.

Lemma iteration_sentinel stream sig i value done L :
  startsWith (chunk_text value) SENTINEL = true ->
  aborted_at_top sig i = false ->
  TextDecoder.do_not_flush (decoder L) = false ->
  exists d',
    iteration stream sig i (Fulfilled value done) L =
    ((Break,
      {| decoder := d'; errorInRead := substring 6 (chunk_text value);
         result := result L ++ chunk_text value |}),
     ReaderRead
       :: (if stream then [SetResponse (result L ++ chunk_text value)] else [])
       ++ (if aborted_in_finally sig i then [ReaderReleaseLock] else [])).
Proof.
  intros Hs Htop Hd.
  destruct (decode_resets (decoder L) value Hd) as [Etext _].
  unfold iteration, try_block. rewrite Htop.
  destruct (TextDecoder.decode (decoder L) value false) as [decoded dec].
  cbn [fst] in Etext. subst decoded. rewrite Hs.
  exists dec. destruct stream, (aborted_in_finally sig i); reflexivity.
Qed.

(** A run of passing reads only accumulates and publishes. *)
Lemma loop_passing stream sig pre rest :
  forall i L,
  forallb passes pre = true ->
  aborted_at_top sig (i + length pre) = false ->
  TextDecoder.do_not_flush (decoder L) = false ->
  exists d',
    TextDecoder.do_not_flush d' = false /\
    loop stream sig (pre ++ rest) i L =
    (value_of (loop stream sig rest (i + length pre)
                 {| decoder := d'; errorInRead := errorInRead L;
                    result := result L ++ texts pre |}),
     passing_events stream (result L) pre
       ++ trace_of (loop stream sig rest (i + length pre)
                      {| decoder := d'; errorInRead := errorInRead L;
                         result := result L ++ texts pre |})).
Proof.
  induction pre as [| rd pre IH]; intros i L Hp Hab Hd.
  - exists (decoder L). split; [assumption |].
    cbn [length app texts flat_map passing_events].
    rewrite Nat.add_0_r, app_nil_r. destruct L.
    cbn [decoder errorInRead result]. now destruct (loop _ _ _ _ _).
  - cbn [forallb] in Hp. apply andb_prop in Hp as [Hrd Hpre].
    cbn [length] in Hab.
    destruct (not_aborted_earlier _ _ _ Hab) as (Htop & Hfin & Hnext).
    destruct (iteration_passes stream sig i rd L Hrd Htop Hfin Hd)
      as (d1 & Hd1 & Eit).
    destruct (IH (S i)
                {| decoder := d1; errorInRead := errorInRead L;
                   result := result L ++ text_of rd |} Hpre Hnext Hd1)
      as (d2 & Hd2 & Eloop).
    cbn [decoder errorInRead result] in Eloop.
    exists d2. split; [assumption |].
    cbn [app loop]. unfold bind at 1. rewrite Eit. cbn [fst snd].
    rewrite Eloop. cbn [texts flat_map passing_events length].
    change (flat_map text_of pre) with (texts pre).
    rewrite Nat.add_succ_r. cbn [Nat.add app].
    rewrite <- !app_assoc. reflexivity.
Qed.

(** The loop on a script whose first read that does not pass is a chunk
    starting with the sentinel. *)
Lemma loop_until_sentinel stream sig pre value done rest :
  forallb passes pre = true ->
  startsWith (chunk_text value) SENTINEL = true ->
  aborted_at_top sig (length pre) = false ->
  exists d',
    loop stream sig (pre ++ Fulfilled value done :: rest) 0 (locals0 TextDecoder.new) =
    ({| decoder := d'; errorInRead := substring 6 (chunk_text value);
        result := texts pre ++ chunk_text value |},
     passing_events stream [] pre
       ++ ReaderRead
       :: (if stream then [SetResponse (texts pre ++ chunk_text value)] else [])
       ++ (if aborted_in_finally sig (length pre) then [ReaderReleaseLock] else [])).
Proof.
  intros Hp Hs Hab.
  destruct (loop_passing stream sig pre (Fulfilled value done :: rest) 0
              (locals0 TextDecoder.new) Hp Hab eq_refl) as (d1 & Hd1 & E).
  cbn [locals0 errorInRead result app Nat.add] in E.
  destruct (iteration_sentinel stream sig (length pre) value done
              {| decoder := d1; errorInRead := []; result := texts pre |}
              Hs Hab Hd1) as (d2 & Eit).
  cbn [result] in Eit.
  exists d2. rewrite E. cbn [loop]. unfold bind. rewrite Eit.
  unfold ret, value_of, trace_of. cbn [fst snd]. rewrite app_nil_r. reflexivity.
Qed.

Lemma readStream_until_sentinel stream sig cb pre value done rest :
  forallb passes pre = true ->
  startsWith (chunk_text value) SENTINEL = true ->
  aborted_at_top sig (length pre) = false ->
  readStream (pre ++ Fulfilled value done :: rest) TextDecoder.new stream sig cb =
  (texts pre ++ chunk_text value,
   (passing_events stream [] pre
      ++ ReaderRead
      :: (if stream then [SetResponse (texts pre ++ chunk_text value)] else [])
      ++ (if aborted_in_finally sig (length pre) then [ReaderReleaseLock] else []))
     ++ SetIdle true
     :: error_events cb (substring 6 (chunk_text value))
     ++ complete_events cb (texts pre ++ chunk_text value)).
Proof.
  intros Hp Hs Hab.
  destruct (loop_until_sentinel stream sig pre value done rest Hp Hs Hab)
    as (d' & E).
  rewrite (surjective_pairing (readStream _ _ _ _ _)).
  change (fst ?m) with (value_of m). change (snd ?m) with (trace_of m).
  rewrite readStream_value, readStream_trace, E. reflexivity.
Qed.

(** The loop on a script of passing reads runs to end-of-stream. *)
Lemma readStream_completed stream cb pre :
  forallb passes pre = true ->
  readStream pre TextDecoder.new stream None cb =
  (texts pre,
   (passing_events stream [] pre
      ++ ReaderRead :: (if stream then [SetResponse (texts pre)] else []))
     ++ SetIdle true :: complete_events cb (texts pre)).
Proof.
  intros Hp.
  destruct (loop_passing stream None pre [] 0 (locals0 TextDecoder.new)
              Hp eq_refl eq_refl) as (d1 & Hd1 & E).
  rewrite app_nil_r in E.
  cbn [locals0 errorInRead result app Nat.add loop] in E.
  destruct (decode_resets d1 None Hd1) as [Etext _].
  unfold iteration, try_block in E. cbn [aborted_at_top aborted_in_finally] in E.
  cbn [decoder result errorInRead END_OF_STREAM] in E.
  destruct (TextDecoder.decode d1 None false) as [decoded dec].
  cbn [fst] in Etext. subst decoded.
  change (chunk_text None) with (@nil Z) in E. rewrite app_nil_r in E.
  change (startsWith [] SENTINEL) with false in E.
  rewrite (surjective_pairing (readStream _ _ _ _ _)).
  change (fst ?m) with (value_of m). change (snd ?m) with (trace_of m).
  rewrite readStream_value, readStream_trace, E.
  destruct stream; reflexivity.
Qed.

Lemma sentinel_split_not_detected :
  startsWith (texts [chunk "Err"; chunk "or: x"]) SENTINEL = true /\
  filter is_on_error
    (trace_of (readStream [chunk "Err"; chunk "or: x"] TextDecoder.new
                 true None both)) = [] /\
  filter is_set_response
    (trace_of (readStream [chunk "Err"; chunk "or: x"] TextDecoder.new
                 true None both)) =
  [SetResponse (lit "Err"); SetResponse (lit "Error: x"); SetResponse (lit "Error: x")].
Proof. repeat split; reflexivity. Qed.

(** C1 (amended): the sentinel is looked for in the text of each chunk
    on its own. When the reads before some chunk all pass (fulfilled, not
    done, text not starting with ["Error:"]), the signal is not aborted
    as that chunk's iteration starts, the chunk's own text starts with
    ["Error:"] and goes on after it, then the loop stops at that chunk:
    [readStream] returns the text accumulated up to and including the
    chunk, and its events are the reads and publications up to that chunk,
    [setIdle(true)], the error field set to the chunk's text after its
    first 6 code units, the reader cancelled, on-error (if supplied) with
    that same text and on-complete (if supplied) with the accumulated
    text. Nothing of the rest of the script is read or published. *)
Theorem sentinel_detected_per_chunk stream sig cb pre value done rest :
  forallb passes pre = true ->
  startsWith (chunk_text value) SENTINEL = true ->
  substring 6 (chunk_text value) <> [] ->
  aborted_at_top sig (length pre) = false ->
  value_of (readStream (pre ++ Fulfilled value done :: rest) TextDecoder.new
              stream sig cb)
    = texts pre ++ chunk_text value /\
  trace_of (readStream (pre ++ Fulfilled value done :: rest) TextDecoder.new
              stream sig cb)
    = passing_events stream [] pre
        ++ ReaderRead
        :: (if stream then [SetResponse (texts pre ++ chunk_text value)] else [])
        ++ (if aborted_in_finally sig (length pre) then [ReaderReleaseLock] else [])
        ++ [SetIdle true; SetError (substring 6 (chunk_text value)); ReaderCancel]
        ++ (if onError cb then [OnError (substring 6 (chunk_text value))] else [])
        ++ (if onComplete cb
            then [OnComplete (texts pre ++ chunk_text value)] else []).
Proof.
  intros Hp Hs Hmsg Hab.
  rewrite (readStream_until_sentinel stream sig cb pre value done rest Hp Hs Hab).
  cbn [value_of trace_of fst snd].
  split; [reflexivity |].
  unfold error_events, complete_events.
  destruct (substring 6 (chunk_text value)) as [| c msg] eqn:Emsg;
    [contradiction |].
  cbn [truthy]. rewrite <- !app_assoc. cbn [app]. rewrite <- !app_assoc.
  reflexivity.
Qed.

Lemma sentinel_detected_per_chunk_witness :
  (forallb passes [chunk "Hello "] = true /\
   startsWith (chunk_text (Some (bytes_of "Error: quota"))) SENTINEL = true /\
   substring 6 (chunk_text (Some (bytes_of "Error: quota"))) <> [] /\
   aborted_at_top None (length [chunk "Hello "]) = false) /\
  value_of (readStream
              ([chunk "Hello "] ++ Fulfilled (Some (bytes_of "Error: quota")) false
                 :: [chunk "never read"])
              TextDecoder.new true None both)
    = lit "Hello Error: quota" /\
  trace_of (readStream
              ([chunk "Hello "] ++ Fulfilled (Some (bytes_of "Error: quota")) false
                 :: [chunk "never read"])
              TextDecoder.new true None both)
    = [ReaderRead; SetResponse (lit "Hello ");
       ReaderRead; SetResponse (lit "Hello Error: quota");
       SetIdle true; SetError (lit " quota"); ReaderCancel;
       OnError (lit " quota"); OnComplete (lit "Hello Error: quota")].
Proof.
  split; [repeat split; try reflexivity; discriminate |].
  apply (sentinel_detected_per_chunk true None both [chunk "Hello "]
           (Some (bytes_of "Error: quota")) false [chunk "never read"]);
    [reflexivity | reflexivity | discriminate | reflexivity].
Defined.

(** ** The sentinel chunk in the response field *)

Lemma startsWith_split (p s : jsstring) :
  startsWith s p = true -> s = p ++ skipn (length p) s.
Proof.
  revert s. induction p as [| c p IH]; intros s H; [reflexivity |].
  destruct s as [| d s]; [discriminate H |].
  cbn in H. apply andb_prop in H as [Hc Hs].
  apply Z.eqb_eq in Hc. subst d. cbn. f_equal. now apply IH.
Qed.

Lemma passing_events_loop stream rds :
  forall acc, forallb is_loop_event (passing_events stream acc rds) = true.
Proof.
  induction rds as [| rd rds IH]; intros acc; [reflexivity |].
  cbn [passing_events forallb is_loop_event andb].
  rewrite forallb_app, IH. now destruct stream.
Qed.

(** C10: in streaming mode, when the loop gets to a chunk whose own text
    starts with ["Error:"], that text, prefix included, is appended to
    [result] and the whole is published with [setResponse] before
    anything the sentinel check leads to: only events of the loop come
    before the publication and no [setResponse] comes after it, so the
    response field of Call State ends as the accumulated text with the
    raw error chunk at its end. *)
Theorem sentinel_chunk_is_published sig cb pre value done rest st :
  forallb passes pre = true ->
  startsWith (chunk_text value) SENTINEL = true ->
  aborted_at_top sig (length pre) = false ->
  chunk_text value = lit "Error:" ++ substring 6 (chunk_text value) /\
  value_of (readStream (pre ++ Fulfilled value done :: rest) TextDecoder.new
              true sig cb)
    = texts pre ++ chunk_text value /\
  (exists before after,
     trace_of (readStream (pre ++ Fulfilled value done :: rest) TextDecoder.new
                 true sig cb)
       = before ++ SetResponse (texts pre ++ chunk_text value) :: after /\
     forallb is_loop_event before = true /\
     forallb (fun e => negb (is_set_response e)) after = true) /\
  response
    (run st (trace_of (readStream (pre ++ Fulfilled value done :: rest)
                         TextDecoder.new true sig cb)))
    = texts pre ++ chunk_text value.
Proof.
  intros Hp Hs Hab.
  rewrite (readStream_until_sentinel true sig cb pre value done rest Hp Hs Hab).
  cbn [value_of trace_of fst snd].
  assert (Hafter :
    forallb (fun e => negb (is_set_response e))
      ((if aborted_in_finally sig (length pre) then [ReaderReleaseLock] else [])
         ++ SetIdle true
         :: error_events cb (substring 6 (chunk_text value))
         ++ complete_events cb (texts pre ++ chunk_text value)) = true).
  { unfold error_events, complete_events.
    destruct (aborted_in_finally _ _), (truthy _), (onError cb), (onComplete cb);
      reflexivity. }
  assert (Etrace :
    (passing_events true [] pre
       ++ ReaderRead :: [SetResponse (texts pre ++ chunk_text value)]
       ++ (if aborted_in_finally sig (length pre) then [ReaderReleaseLock] else []))
      ++ SetIdle true
      :: error_events cb (substring 6 (chunk_text value))
      ++ complete_events cb (texts pre ++ chunk_text value)
    = (passing_events true [] pre ++ [ReaderRead])
        ++ SetResponse (texts pre ++ chunk_text value)
        :: ((if aborted_in_finally sig (length pre) then [ReaderReleaseLock] else [])
              ++ SetIdle true
              :: error_events cb (substring 6 (chunk_text value))
              ++ complete_events cb (texts pre ++ chunk_text value))).
  { rewrite <- !app_assoc. reflexivity. }
  rewrite Etrace. repeat split.
  - exact (startsWith_split SENTINEL _ Hs).
  - eexists _, _. split; [reflexivity |]. split; [| exact Hafter].
    rewrite forallb_app, passing_events_loop. reflexivity.
  - rewrite run_app. cbn [run fold_left].
    change (fold_left apply ?tr ?s) with (run s tr).
    rewrite (response_run_unpublished _ _ Hafter). reflexivity.
Qed.

Lemma sentinel_chunk_is_published_witness :
  (forallb passes [chunk "Hi. "] = true /\
   startsWith (chunk_text (Some (bytes_of "Error: quota"))) SENTINEL = true /\
   aborted_at_top None (length [chunk "Hi. "]) = false) /\
  response
    (run initial
       (trace_of (readStream
                    ([chunk "Hi. "] ++ Fulfilled (Some (bytes_of "Error: quota")) false
                       :: [])
                    TextDecoder.new true None both)))
    = lit "Hi. Error: quota".
Proof.
  split; [repeat split; reflexivity |].
  apply (sentinel_chunk_is_published None both [chunk "Hi. "]
           (Some (bytes_of "Error: quota")) false [] initial);
    reflexivity.
Defined.

(** ** The error field across calls *)

Lemma error_run tr :
  forall st, error (run st tr) = error st \/ In (SetError (error (run st tr))) tr.
Proof.
  induction tr as [| e tr IH]; intros st; [now left |].
  cbn [run fold_left]. change (fold_left apply tr ?s) with (run s tr).
  destruct (IH (apply st e)) as [H | H]; [| right; now right].
  rewrite H. destruct e; cbn [apply error]; try (now left).
  right. left. reflexivity.
Qed.

Lemma loop_event_in tr e :
  forallb is_loop_event tr = true -> In e tr -> is_loop_event e = true.
Proof. intros H. now apply forallb_forall. Qed.

(** The error field is written on the error paths only, and never with
    the empty text. *)
Lemma send_set_error ctx net stream sig cb e :
  In (SetError e) (trace_of (send ctx net stream sig cb)) ->
  e <> [] /\ records_error net stream sig = true.
Proof.
  destruct (reaches_stream net) eqn:Hnet.
  - destruct net as [r | message]; [| discriminate Hnet]. cbn in Hnet.
    destruct (body r) as [reads |] eqn:Hbody.
    + rewrite (send_ok_trace _ _ _ _ _ _ Hnet Hbody), readStream_trace.
      cbn [records_error]. rewrite Hnet, Hbody. cbn [negb orb].
      intros H. apply in_app_or in H as [H | H].
      { cbn in H. repeat (destruct H as [H | H]; [discriminate H |]). destruct H. }
      apply in_app_or in H as [H | H].
      { apply (loop_event_in _ _ (loop_events _ _ _ _ _)) in H. discriminate H. }
      destruct H as [H | H]; [discriminate H |].
      unfold error_events, complete_events in H.
      destruct (errorInRead _) as [| c msg]; cbn [truthy app] in H.
      * destruct (onComplete cb); cbn in H;
          [destruct H as [H | H]; [discriminate H |] |]; destruct H.
      * split; [| reflexivity].
        destruct H as [H | H]; [injection H as <-; discriminate |].
        destruct H as [H | H]; [discriminate H |].
        apply in_app_or in H as [H | H];
          [destruct (onError cb) | destruct (onComplete cb)]; cbn in H;
          try (destruct H as [H | H]; [discriminate H |]); destruct H.
    + rewrite (send_no_body _ _ _ _ _ Hnet Hbody). cbn [trace_of snd].
      cbn [records_error]. rewrite Hnet, Hbody. cbn [negb orb].
      unfold no_body_events, readStream_no_reader, fetch_error_events.
      intros H.
      destruct (aborted_at_top sig 0), stream, (onError cb);
        cbn in H |- *;
        repeat (destruct H as [H | H];
                [first [discriminate H
                       | injection H as <-; split; [discriminate | reflexivity]] |]);
        destruct H.
  - rewrite (send_failed _ _ _ _ _ Hnet). cbn [trace_of snd].
    unfold fetch_error_events. intros H.
    assert (He : e = errorInFetch_of net).
    { cbn in H. repeat (destruct H as [H | H]; [discriminate H |]).
      destruct H as [H | H]; [now injection H |].
      destruct (onError cb); cbn in H;
        repeat (destruct H as [H | H]; [discriminate H |]); destruct H. }
    subst e. split; [apply errorInFetch_not_empty |].
    destruct net as [r | message]; [| reflexivity].
    cbn in Hnet |- *. now rewrite Hnet.
Qed.

Lemma send_starts_with_reset ctx net stream sig cb :
  exists rest,
    trace_of (send ctx net stream sig cb) = SetResponse [] :: SetIdle false :: rest.
Proof.
  destruct (reaches_stream net) eqn:Hnet.
  - destruct net as [r | message]; [| discriminate Hnet]. cbn in Hnet.
    destruct (body r) as [reads |] eqn:Hbody.
    + rewrite (send_ok_trace _ _ _ _ _ _ Hnet Hbody). eexists. reflexivity.
    + rewrite (send_no_body _ _ _ _ _ Hnet Hbody). eexists. reflexivity.
  - rewrite (send_failed _ _ _ _ _ Hnet). eexists. reflexivity.
Qed.

Lemma error_replaced_by_next_error :
  error (run initial (trace_of (send None (Resolved response_500) true None both)))
    = lit "Error: Network error for service. (500 Internal Server Error)" /\
  error (run (run initial (trace_of (send None (Resolved response_500) true None both)))
             (trace_of (send None (Resolved response_503) true None both)))
    = lit "Error: Network error for service. (503 Service Unavailable)" /\
  error (run (run initial (trace_of (send None (Resolved response_500) true None both)))
             (trace_of (send None (Resolved response_503) true None both)))
    <> error (run initial (trace_of (send None (Resolved response_500) true None both))).
Proof. repeat split; try reflexivity. discriminate. Qed.

(** C9 (amended): a call starts by setting the response text to empty
    and idle to false and does not clear the error field. At every point
    [p] of a later call the error field still holds the text the call
    found there, unless the call has by then recorded an error of its
    own, which is never the empty text; a call that takes none of the
    error paths leaves the earlier text in place from its start to its
    end. *)
Theorem error_field_kept_until_next_error ctx net stream sig cb st p q :
  trace_of (send ctx net stream sig cb) = p ++ q ->
  (exists rest,
     trace_of (send ctx net stream sig cb) = SetResponse [] :: SetIdle false :: rest /\
     response (run st [SetResponse []; SetIdle false]) = [] /\
     idle (run st [SetResponse []; SetIdle false]) = false /\
     error (run st [SetResponse []; SetIdle false]) = error st) /\
  (error (run st p) = error st \/
   (records_error net stream sig = true /\
    error (run st p) <> [] /\
    In (SetError (error (run st p))) p)) /\
  (records_error net stream sig = false -> error (run st p) = error st).
Proof.
  intros Hpq.
  assert (Hmid :
    error (run st p) = error st \/
    (records_error net stream sig = true /\
     error (run st p) <> [] /\
     In (SetError (error (run st p))) p)).
  { destruct (error_run p st) as [H | H]; [now left | right].
    assert (Hin : In (SetError (error (run st p)))
                     (trace_of (send ctx net stream sig cb))).
    { rewrite Hpq. apply in_or_app. now left. }
    destruct (send_set_error _ _ _ _ _ _ Hin) as [Hne Hrec]. auto. }
  split; [| split; [exact Hmid |]].
  - destruct (send_starts_with_reset ctx net stream sig cb) as [rest E].
    exists rest. repeat split. exact E.
  - intros Hrec. destruct Hmid as [H | (H & _)]; [exact H |].
    rewrite Hrec in H. discriminate H.
Qed.

Lemma error_field_kept_until_next_error_witness :
  records_error (Resolved (response_200 [chunk "pong"])) true None = false /\
  error
    (run (run initial (trace_of (send None (Resolved response_500) true None both)))
         (trace_of (send None (Resolved (response_200 [chunk "pong"])) true None both)))
    = lit "Error: Network error for service. (500 Internal Server Error)".
Proof.
  split; [reflexivity |].
  destruct (error_field_kept_until_next_error None
              (Resolved (response_200 [chunk "pong"])) true None both
              (run initial (trace_of (send None (Resolved response_500) true None both)))
              (trace_of (send None (Resolved (response_200 [chunk "pong"])) true None both))
              [] (eq_sym (app_nil_r _))) as (_ & _ & H).
  exact (H eq_refl).
Defined.

(** ** Decoding chunk by chunk *)

Lemma utf8_bytes_app bs1 bs2 st :
  TextDecoder.utf8_bytes st (bs1 ++ bs2) =
  (fst (TextDecoder.utf8_bytes st bs1)
     ++ fst (TextDecoder.utf8_bytes (snd (TextDecoder.utf8_bytes st bs1)) bs2),
   snd (TextDecoder.utf8_bytes (snd (TextDecoder.utf8_bytes st bs1)) bs2)).
Proof.
  revert st. induction bs1 as [| b bs1 IH]; intros st; cbn [app TextDecoder.utf8_bytes].
  - cbn [fst snd app]. now destruct (TextDecoder.utf8_bytes st bs2).
  - destruct (TextDecoder.utf8_byte st b) as [out st1]. rewrite IH.
    destruct (TextDecoder.utf8_bytes st1 bs1) as [outs st2]. cbn [fst snd].
    now rewrite app_assoc.
Qed.

Lemma strip_bom_app seen out1 out2 :
  TextDecoder.strip_bom seen (out1 ++ out2) =
  (fst (TextDecoder.strip_bom seen out1)
     ++ fst (TextDecoder.strip_bom (snd (TextDecoder.strip_bom seen out1)) out2),
   snd (TextDecoder.strip_bom (snd (TextDecoder.strip_bom seen out1)) out2)).
Proof.
  destruct out1 as [| c out1]; cbn [app TextDecoder.strip_bom fst snd].
  - now destruct (TextDecoder.strip_bom seen out2).
  - destruct seen; [| destruct (c =? TextDecoder.BOM)]; cbn [fst snd];
      destruct out2; cbn [TextDecoder.strip_bom fst snd];
      rewrite ?app_nil_r; reflexivity.
Qed.

(** With [{ stream: true }] on every chunk and a flush at the end, the
    decoder gives the text of the concatenated bytes however they are
    cut into chunks. *)
Lemma decode_streaming_concat chunks :
  forall d,
  decode_streaming d chunks = fst (TextDecoder.decode d (Some (concat chunks)) false).
Proof.
  induction chunks as [| c rest IH]; intros d; [reflexivity |].
  cbn [decode_streaming concat].
  destruct (TextDecoder.decode d (Some c) true) as [s d'] eqn:E.
  rewrite IH. unfold TextDecoder.decode in *.
  rewrite map_app, utf8_bytes_app.
  destruct (TextDecoder.utf8_bytes _ (map TextDecoder.byte_val c)) as [out1 st1].
  cbn [fst snd] in *.
  set (seen0 := if TextDecoder.do_not_flush d then TextDecoder.bom_seen d else false) in *.
  rewrite (surjective_pairing (TextDecoder.strip_bom seen0 out1)) in E.
  injection E as <- <-.
  cbn [TextDecoder.do_not_flush TextDecoder.utf8 TextDecoder.bom_seen].
  destruct (TextDecoder.utf8_bytes st1 _) as [out2 st2]. cbn [fst snd].
  rewrite <- app_assoc, (strip_bom_app seen0 out1).
  destruct (TextDecoder.strip_bom seen0 out1) as [vals1 seen1]. cbn [fst snd].
  destruct (TextDecoder.strip_bom seen1 _) as [vals2 seen2]. cbn [fst snd].
  now rewrite flat_map_app.
Qed.

(** The loop instead returns the texts of the chunks decoded one by one. *)
Lemma loop_decodes_chunk_by_chunk stream cb (chunks : list (list byte)) :
  forallb passes (map (fun c => Fulfilled (Some c) false) chunks) = true ->
  value_of (readStream (map (fun c => Fulfilled (Some c) false) chunks)
              TextDecoder.new stream None cb)
    = flat_map (fun c => chunk_text (Some c)) chunks /\
  decode_streaming TextDecoder.new chunks = chunk_text (Some (concat chunks)).
Proof.
  intros Hp. rewrite (readStream_completed stream cb _ Hp).
  split; [| apply decode_streaming_concat].
  cbn [value_of fst]. unfold texts. rewrite flat_map_concat_map, map_map.
  now rewrite <- flat_map_concat_map.
Qed.

(** * Further properties of the current revision *)

Ltac norm_app := repeat first [rewrite <- app_assoc | progress cbn [app]].

(** ** The ways out of the loop, in general *)

(** X1: when every read of the body passes (fulfilled, not done, text
    not starting with the sentinel) and the signal is never aborted, the
    loop runs to end-of-stream: [readStream] returns the texts of the
    chunks in order; in streaming mode it publishes the accumulated text
    after every chunk and once more at end-of-stream; it sets idle true
    and calls on-complete (if supplied) with the text; it writes no
    error and neither cancels nor releases the reader. *)
Theorem completed_stream stream cb pre :
  forallb passes pre = true ->
  value_of (readStream pre TextDecoder.new stream None cb) = texts pre /\
  trace_of (readStream pre TextDecoder.new stream None cb) =
    (passing_events stream [] pre
       ++ ReaderRead :: (if stream then [SetResponse (texts pre)] else []))
      ++ SetIdle true :: (if onComplete cb then [OnComplete (texts pre)] else []).
Proof.
  intros Hp. rewrite (readStream_completed stream cb pre Hp). split; reflexivity.
Qed.

Lemma completed_stream_witness :
  forallb passes [chunk "pon"; chunk "g"] = true /\
  value_of (readStream [chunk "pon"; chunk "g"] TextDecoder.new true None both)
    = lit "pong" /\
  trace_of (readStream [chunk "pon"; chunk "g"] TextDecoder.new true None both) =
    [ReaderRead; SetResponse (lit "pon"); ReaderRead; SetResponse (lit "pong");
     ReaderRead; SetResponse (lit "pong"); SetIdle true; OnComplete (lit "pong")].
Proof.
  split; [reflexivity |].
  apply (completed_stream true both [chunk "pon"; chunk "g"]). reflexivity.
Defined.

Lemma iteration_rejected stream sig i name message L :
  aborted_at_top sig i = false ->
  iteration stream sig i (Rejected name message) L =
  ((Break,
    if negb (strict_eq name (lit "AbortError")) then
      {| decoder := decoder L; errorInRead := lit "Read error: " ++ message;
         result := result L |}
    else L),
   ReaderRead :: (if aborted_in_finally sig i then [ReaderReleaseLock] else [])).
Proof.
  intros Htop. unfold iteration, try_block. rewrite Htop.
  destruct (aborted_in_finally sig i); reflexivity.
Qed.

Lemma readStream_until_rejected stream sig cb pre name message rest :
  forallb passes pre = true ->
  aborted_at_top sig (length pre) = false ->
  readStream (pre ++ Rejected name message :: rest) TextDecoder.new stream sig cb =
  (texts pre,
   (passing_events stream [] pre
      ++ ReaderRead
      :: (if aborted_in_finally sig (length pre) then [ReaderReleaseLock] else []))
     ++ SetIdle true
     :: error_events cb
          (if negb (strict_eq name (lit "AbortError"))
           then lit "Read error: " ++ message else [])
     ++ complete_events cb (texts pre)).
Proof.
  intros Hp Hab.
  destruct (loop_passing stream sig pre (Rejected name message :: rest) 0
              (locals0 TextDecoder.new) Hp Hab eq_refl) as (d1 & Hd1 & E).
  cbn [locals0 errorInRead result app Nat.add] in E.
  cbn [loop] in E. unfold bind in E.
  rewrite (iteration_rejected stream sig (length pre) name message _ Hab) in E.
  cbn [fst snd] in E. unfold ret, value_of, trace_of in E. cbn [fst snd] in E.
  rewrite app_nil_r in E.
  rewrite (surjective_pairing (readStream _ _ _ _ _)).
  change (fst ?m) with (value_of m). change (snd ?m) with (trace_of m).
  rewrite readStream_value, readStream_trace, E.
  cbn [value_of trace_of fst snd].
  destruct (negb (strict_eq name (lit "AbortError"))); reflexivity.
Qed.

(** X2: when a read rejects with an error that is not an [AbortError],
    after reads that all pass and with the signal not aborted as that
    iteration starts, [readStream] returns the text accumulated so far,
    writes ["Read error: " + error.message] to the error field, cancels
    the reader, calls on-error (if supplied) with that text and then
    on-complete (if supplied) with the accumulated text; nothing of the
    rest of the body is read. *)
Theorem read_error_reported stream sig cb pre name message rest :
  forallb passes pre = true ->
  aborted_at_top sig (length pre) = false ->
  strict_eq name (lit "AbortError") = false ->
  value_of (readStream (pre ++ Rejected name message :: rest) TextDecoder.new
              stream sig cb) = texts pre /\
  trace_of (readStream (pre ++ Rejected name message :: rest) TextDecoder.new
              stream sig cb) =
    passing_events stream [] pre
      ++ ReaderRead
      :: (if aborted_in_finally sig (length pre) then [ReaderReleaseLock] else [])
      ++ [SetIdle true; SetError (lit "Read error: " ++ message); ReaderCancel]
      ++ (if onError cb then [OnError (lit "Read error: " ++ message)] else [])
      ++ (if onComplete cb then [OnComplete (texts pre)] else []).
Proof.
  intros Hp Hab Hname.
  rewrite (readStream_until_rejected stream sig cb pre name message rest Hp Hab).
  rewrite Hname. cbn [negb value_of trace_of fst snd].
  split; [reflexivity |].
  unfold error_events, complete_events.
  change (truthy (lit "Read error: " ++ message)) with true. cbn iota.
  norm_app. reflexivity.
Qed.

Lemma read_error_reported_witness :
  (forallb passes [chunk "pon"] = true /\
   aborted_at_top None (length [chunk "pon"]) = false /\
   strict_eq (lit "TypeError") (lit "AbortError") = false) /\
  value_of (readStream ([chunk "pon"] ++ Rejected (lit "TypeError") (lit "reset")
                          :: [chunk "g"])
              TextDecoder.new true None both) = lit "pon" /\
  trace_of (readStream ([chunk "pon"] ++ Rejected (lit "TypeError") (lit "reset")
                          :: [chunk "g"])
              TextDecoder.new true None both) =
    [ReaderRead; SetResponse (lit "pon"); ReaderRead; SetIdle true;
     SetError (lit "Read error: reset"); ReaderCancel;
     OnError (lit "Read error: reset"); OnComplete (lit "pon")].
Proof.
  split; [repeat split; reflexivity |].
  apply (read_error_reported true None both [chunk "pon"] (lit "TypeError")
           (lit "reset") [chunk "g"]); reflexivity.
Defined.

(** X3: a read that rejects with an [AbortError] ends the loop without
    an error: the error field is not written, on-error is not called,
    the reader is not cancelled; idle is set true and on-complete (if
    supplied) receives the text accumulated so far. The lock is released
    when the signal is seen aborted in [finally]. *)
Theorem abort_error_is_silent stream sig cb pre message rest :
  forallb passes pre = true ->
  aborted_at_top sig (length pre) = false ->
  value_of (readStream (pre ++ Rejected (lit "AbortError") message :: rest)
              TextDecoder.new stream sig cb) = texts pre /\
  trace_of (readStream (pre ++ Rejected (lit "AbortError") message :: rest)
              TextDecoder.new stream sig cb) =
    passing_events stream [] pre
      ++ ReaderRead
      :: (if aborted_in_finally sig (length pre) then [ReaderReleaseLock] else [])
      ++ SetIdle true
      :: (if onComplete cb then [OnComplete (texts pre)] else []).
Proof.
  intros Hp Hab.
  rewrite (readStream_until_rejected stream sig cb pre _ message rest Hp Hab).
  change (strict_eq (lit "AbortError") (lit "AbortError")) with true.
  cbn [negb value_of trace_of fst snd].
  split; [reflexivity |].
  unfold error_events, complete_events. cbn [truthy app].
  norm_app. reflexivity.
Qed.

Lemma abort_error_is_silent_witness :
  (forallb passes [chunk "pon"] = true /\
   aborted_at_top (Some 2%nat) (length [chunk "pon"]) = false) /\
  value_of (readStream ([chunk "pon"] ++ Rejected (lit "AbortError") (lit "stopped")
                          :: [chunk "g"])
              TextDecoder.new true (Some 2%nat) both) = lit "pon" /\
  trace_of (readStream ([chunk "pon"] ++ Rejected (lit "AbortError") (lit "stopped")
                          :: [chunk "g"])
              TextDecoder.new true (Some 2%nat) both) =
    [ReaderRead; SetResponse (lit "pon"); ReaderRead; ReaderReleaseLock;
     SetIdle true; OnComplete (lit "pon")].
Proof.
  split; [repeat split; reflexivity |].
  apply (abort_error_is_silent true (Some 2%nat) both [chunk "pon"]
           (lit "stopped") [chunk "g"]); reflexivity.
Defined.

(** X4: a chunk whose text is exactly ["Error:"] stops the loop like
    any sentinel chunk, but the text after the sentinel is empty and an
    empty [errorInRead] counts as no error: the error field is not
    written, the reader is not cancelled and on-error is not called;
    on-complete (if supplied) receives the accumulated text, the
    sentinel included. *)
Theorem bare_sentinel_is_silent stream sig cb pre value done rest :
  forallb passes pre = true ->
  chunk_text value = SENTINEL ->
  aborted_at_top sig (length pre) = false ->
  value_of (readStream (pre ++ Fulfilled value done :: rest) TextDecoder.new
              stream sig cb) = texts pre ++ lit "Error:" /\
  trace_of (readStream (pre ++ Fulfilled value done :: rest) TextDecoder.new
              stream sig cb) =
    passing_events stream [] pre
      ++ ReaderRead
      :: (if stream then [SetResponse (texts pre ++ lit "Error:")] else [])
      ++ (if aborted_in_finally sig (length pre) then [ReaderReleaseLock] else [])
      ++ SetIdle true
      :: (if onComplete cb then [OnComplete (texts pre ++ lit "Error:")] else []).
Proof.
  intros Hp Hv Hab.
  assert (Hs : startsWith (chunk_text value) SENTINEL = true)
    by (rewrite Hv; reflexivity).
  rewrite (readStream_until_sentinel stream sig cb pre value done rest Hp Hs Hab).
  rewrite Hv. cbn [value_of trace_of fst snd].
  split; [reflexivity |].
  change (substring 6 SENTINEL) with (@nil Z).
  unfold error_events, complete_events. cbn [truthy app].
  norm_app. reflexivity.
Qed.

Lemma bare_sentinel_is_silent_witness :
  (forallb passes [chunk "pon"] = true /\
   chunk_text (Some (bytes_of "Error:")) = SENTINEL /\
   aborted_at_top None (length [chunk "pon"]) = false) /\
  value_of (readStream ([chunk "pon"] ++ Fulfilled (Some (bytes_of "Error:")) false
                          :: [chunk "g"])
              TextDecoder.new true None both) = lit "ponError:" /\
  trace_of (readStream ([chunk "pon"] ++ Fulfilled (Some (bytes_of "Error:")) false
                          :: [chunk "g"])
              TextDecoder.new true None both) =
    [ReaderRead; SetResponse (lit "pon"); ReaderRead; SetResponse (lit "ponError:");
     SetIdle true; OnComplete (lit "ponError:")].
Proof.
  split; [repeat split; reflexivity |].
  apply (bare_sentinel_is_silent true None both [chunk "pon"]
           (Some (bytes_of "Error:")) false [chunk "g"]); reflexivity.
Defined.

(** ** Cancellation *)

Lemma iteration_passes_finally stream sig i rd L :
  passes rd = true ->
  aborted_at_top sig i = false ->
  TextDecoder.do_not_flush (decoder L) = false ->
  exists d',
    TextDecoder.do_not_flush d' = false /\
    iteration stream sig i rd L =
    ((Continue,
      {| decoder := d'; errorInRead := errorInRead L;
         result := result L ++ text_of rd |}),
     ReaderRead
       :: (if stream then [SetResponse (result L ++ text_of rd)] else [])
       ++ (if aborted_in_finally sig i then [ReaderReleaseLock] else [])).
Proof.
  intros Hp Htop Hd.
  destruct rd as [value [|] | name message]; try discriminate Hp.
  cbn [passes] in Hp. apply negb_true_iff in Hp.
  destruct (decode_resets (decoder L) value Hd) as [Etext Eflag].
  unfold iteration, try_block. rewrite Htop.
  destruct (TextDecoder.decode (decoder L) value false) as [decoded dec].
  cbn [fst snd] in Etext, Eflag. subst decoded. rewrite Hp.
  exists dec. split; [assumption |].
  destruct stream, (aborted_in_finally sig i); reflexivity.
Qed.

Lemma loop_aborted_at_top stream sig reads i L :
  aborted_at_top sig i = true ->
  loop stream sig reads i L = (L, [ReaderCancel; ReaderReleaseLock]).
Proof.
  intros Htop.
  assert (Hfin : aborted_in_finally sig i = true).
  { destruct sig as [k |]; [| discriminate Htop].
    cbn [aborted_at_top aborted_in_finally] in *.
    apply Nat.leb_le in Htop. apply Nat.leb_le. lia. }
  destruct reads as [| rd rest]; cbn [loop];
    unfold iteration, try_block; rewrite Htop, Hfin; reflexivity.
Qed.

(** X5: when the signal is aborted while a read is awaited and that read
    still delivers a passing chunk, the chunk is kept and published, the
    lock is released in [finally], and the next iteration stops the loop
    before any further read: [readStream] returns the texts of the
    chunks up to and including that one, cancels the reader, releases the
    lock again, sets idle true and calls on-complete (if supplied); no
    error is written and on-error is not called. *)
Theorem cancelled_mid_stream stream cb pre rd rest :
  forallb passes pre = true ->
  passes rd = true ->
  value_of (readStream (pre ++ rd :: rest) TextDecoder.new stream
              (Some (S (length pre))) cb) = texts pre ++ text_of rd /\
  trace_of (readStream (pre ++ rd :: rest) TextDecoder.new stream
              (Some (S (length pre))) cb) =
    passing_events stream [] pre
      ++ ReaderRead
      :: (if stream then [SetResponse (texts pre ++ text_of rd)] else [])
      ++ [ReaderReleaseLock; ReaderCancel; ReaderReleaseLock; SetIdle true]
      ++ (if onComplete cb then [OnComplete (texts pre ++ text_of rd)] else []).
Proof.
  intros Hp Hrd.
  assert (Hab : aborted_at_top (Some (S (length pre))) (0 + length pre) = false).
  { cbn [aborted_at_top Nat.add]. apply Nat.leb_gt. lia. }
  destruct (loop_passing stream (Some (S (length pre))) pre (rd :: rest) 0
              (locals0 TextDecoder.new) Hp Hab eq_refl) as (d1 & Hd1 & E).
  cbn [locals0 errorInRead result app Nat.add] in E, Hab.
  destruct (iteration_passes_finally stream (Some (S (length pre))) (length pre) rd
              {| decoder := d1; errorInRead := []; result := texts pre |}
              Hrd Hab Hd1) as (d2 & Hd2 & Eit).
  cbn [result errorInRead] in Eit.
  assert (Hfin : aborted_in_finally (Some (S (length pre))) (length pre) = true)
    by (cbn [aborted_in_finally]; apply Nat.leb_refl).
  rewrite Hfin in Eit.
  cbn [loop] in E. unfold bind at 1 2 in E. rewrite Eit in E.
  cbn [fst snd] in E.
  rewrite (loop_aborted_at_top stream _ rest (S (length pre))) in E
    by (cbn [aborted_at_top]; apply Nat.leb_refl).
  unfold value_of, trace_of in E. cbn [fst snd] in E.
  rewrite (surjective_pairing (readStream _ _ _ _ _)).
  change (fst ?m) with (value_of m). change (snd ?m) with (trace_of m).
  rewrite readStream_value, readStream_trace, E.
  cbn [value_of trace_of fst snd result errorInRead].
  split; [reflexivity |].
  unfold error_events, complete_events. cbn [truthy].
  destruct stream; norm_app; reflexivity.
Qed.

Lemma cancelled_mid_stream_witness :
  (forallb passes [chunk "po"] = true /\ passes (chunk "n") = true) /\
  value_of (readStream ([chunk "po"] ++ chunk "n" :: [chunk "g"]) TextDecoder.new
              true (Some (S (length [chunk "po"]))) both) = lit "pon" /\
  trace_of (readStream ([chunk "po"] ++ chunk "n" :: [chunk "g"]) TextDecoder.new
              true (Some (S (length [chunk "po"]))) both) =
    [ReaderRead; SetResponse (lit "po"); ReaderRead; SetResponse (lit "pon");
     ReaderReleaseLock; ReaderCancel; ReaderReleaseLock; SetIdle true;
     OnComplete (lit "pon")].
Proof.
  split; [split; reflexivity |].
  apply (cancelled_mid_stream true both [chunk "po"] (chunk "n") [chunk "g"]);
    reflexivity.
Defined.

Lemma iteration_reads stream sig i rd L :
  filter is_reader_read (trace_of (iteration stream sig i rd L)) =
    (if aborted_at_top sig i then [] else [ReaderRead]) /\
  (aborted_at_top sig i = true ->
   fst (value_of (iteration stream sig i rd L)) = Break).
Proof.
  unfold iteration, try_block. unfold_m.
  destruct (aborted_at_top sig i), (aborted_in_finally sig i), stream;
    try (split; [reflexivity | intros; try reflexivity; discriminate]);
    (destruct rd as [value done | name message];
     [| split; [reflexivity | intros; discriminate]]);
    destruct (TextDecoder.decode _ _ _) as [decoded dec];
    destruct (startsWith decoded SENTINEL);
    (split; [reflexivity | intros; discriminate]).
Qed.

Lemma loop_reads_bound stream k reads :
  forall i L,
  (length (filter is_reader_read (trace_of (loop stream (Some k) reads i L)))
   <= k - i)%nat.
Proof.
  induction reads as [| rd rest IH]; intros i L; cbn [loop];
    rewrite trace_bind, filter_app, length_app.
  - destruct (iteration_reads stream (Some k) i END_OF_STREAM L) as [-> _].
    cbn [aborted_at_top ret trace_of snd filter length].
    destruct (k <=? i)%nat eqn:Hk; cbn [length]; [lia |].
    apply Nat.leb_gt in Hk. lia.
  - destruct (iteration_reads stream (Some k) i rd L) as [-> Hbreak].
    cbn [aborted_at_top] in *.
    destruct (k <=? i)%nat eqn:Hk.
    + rewrite (Hbreak eq_refl). cbn. lia.
    + apply Nat.leb_gt in Hk. cbn [length].
      destruct (fst _).
      * specialize (IH (S i) (snd (value_of (iteration stream (Some k) i rd L)))).
        lia.
      * cbn. lia.
Qed.

Lemma readStream_reads_bound reads dec stream k cb :
  (length (filter is_reader_read
             (trace_of (readStream reads dec stream (Some k) cb))) <= k)%nat.
Proof.
  rewrite readStream_trace, filter_app, length_app.
  pose proof (loop_reads_bound stream k reads 0 (locals0 dec)) as H.
  assert (Hfin :
    filter is_reader_read
      (SetIdle true
         :: error_events cb
              (errorInRead (value_of (loop stream (Some k) reads 0 (locals0 dec))))
         ++ complete_events cb
              (result (value_of (loop stream (Some k) reads 0 (locals0 dec))))) = []).
  { cbn [filter is_reader_read]. rewrite filter_app.
    unfold error_events, complete_events.
    destruct (truthy _), (onError cb), (onComplete cb); reflexivity. }
  rewrite Hfin. cbn [length]. lia.
Qed.

(** X6: under a signal aborted at point [k] (before the loop for
    [k = 0], while read number [k - 1] is awaited otherwise) the loop
    awaits at most [k] reads, whatever the reader delivers and however
    long the body is. *)
Theorem aborted_signal_bounds_reads reads dec stream k cb :
  (length (filter is_reader_read
             (trace_of (readStream reads dec stream (Some k) cb))) <= k)%nat.
Proof. apply readStream_reads_bound. Qed.

(** ** What the loop publishes and what it does to the reader *)

Lemma iteration_result stream sig i rd L :
  (exists a,
     result (snd (value_of (iteration stream sig i rd L))) = result L ++ a) /\
  (forall s,
     In (SetResponse s) (trace_of (iteration stream sig i rd L)) ->
     s = result (snd (value_of (iteration stream sig i rd L)))).
Proof.
  unfold iteration, try_block. unfold_m.
  destruct (aborted_at_top sig i), (aborted_in_finally sig i);
    try (split; [exists []; cbn; now rewrite app_nil_r |];
         intros s H; cbn in H;
         repeat (destruct H as [H | H]; [discriminate H |]); now destruct H);
    (destruct rd as [value done | name message];
     [| split; [exists []; destruct (negb _); cbn [fst snd result];
                symmetry; apply app_nil_r |];
        intros s H; cbn in H;
        repeat (destruct H as [H | H]; [discriminate H |]); now destruct H]);
    destruct (TextDecoder.decode _ _ _) as [decoded dec];
    (split;
     [exists decoded; destruct stream, (startsWith decoded SENTINEL); reflexivity |]);
    intros s H;
    destruct stream, (startsWith decoded SENTINEL); cbn in H |- *;
    repeat (destruct H as [H | H];
            [first [discriminate H | now injection H as <-] |]);
    now destruct H.
Qed.

Lemma loop_extends stream sig reads :
  forall i L,
  exists a, result (value_of (loop stream sig reads i L)) = result L ++ a.
Proof.
  induction reads as [| rd rest IH]; intros i L; cbn [loop]; rewrite value_bind.
  - exact (proj1 (iteration_result stream sig i END_OF_STREAM L)).
  - destruct (iteration_result stream sig i rd L) as [[a Ha] _].
    destruct (fst _).
    + destruct (IH (S i) (snd (value_of (iteration stream sig i rd L)))) as [b Hb].
      exists (a ++ b). rewrite Hb, Ha. now rewrite app_assoc.
    + exists a. exact Ha.
Qed.

Lemma loop_publishes_prefixes stream sig reads :
  forall i L s,
  In (SetResponse s) (trace_of (loop stream sig reads i L)) ->
  exists b, result (value_of (loop stream sig reads i L)) = s ++ b.
Proof.
  induction reads as [| rd rest IH]; intros i L s; cbn [loop];
    rewrite trace_bind, value_bind; intros H; apply in_app_or in H as [H | H].
  - apply (proj2 (iteration_result stream sig i END_OF_STREAM L)) in H.
    exists []. cbn. now rewrite app_nil_r.
  - destruct H.
  - apply (proj2 (iteration_result stream sig i rd L)) in H.
    destruct (fst _).
    + destruct (loop_extends stream sig rest (S i)
                  (snd (value_of (iteration stream sig i rd L)))) as [b Hb].
      exists b. now rewrite Hb, H.
    + exists []. cbn. now rewrite app_nil_r.
  - destruct (fst _).
    + now apply IH.
    + destruct H.
Qed.

Lemma published_app tr1 tr2 :
  published (tr1 ++ tr2) = published tr1 ++ published tr2.
Proof. apply flat_map_app. Qed.

Lemma iteration_published stream sig i rd L :
  published (trace_of (iteration stream sig i rd L)) = [] \/
  published (trace_of (iteration stream sig i rd L)) =
    [result (snd (value_of (iteration stream sig i rd L)))].
Proof.
  unfold iteration, try_block. unfold_m.
  destruct (aborted_at_top sig i), (aborted_in_finally sig i);
    try (left; reflexivity);
    (destruct rd as [value done | name message]; [| left; reflexivity]);
    destruct (TextDecoder.decode _ _ _) as [decoded dec];
    destruct stream, (startsWith decoded SENTINEL);
    first [left; reflexivity | right; reflexivity].
Qed.

Lemma grows_to_base base base' l final :
  (exists a, base' = base ++ a) ->
  grows_to base' l final -> grows_to base l final.
Proof.
  intros [a ->]. destruct l as [| s l]; cbn [grows_to].
  - intros [d ->]. exists (a ++ d). now rewrite app_assoc.
  - intros [[d ->] H]. split; [| exact H]. exists (a ++ d). now rewrite app_assoc.
Qed.

Lemma loop_grows stream sig reads :
  forall i L,
  grows_to (result L) (published (trace_of (loop stream sig reads i L)))
           (result (value_of (loop stream sig reads i L))).
Proof.
  induction reads as [| rd rest IH]; intros i L; cbn [loop];
    rewrite trace_bind, value_bind, published_app.
  - cbn [ret trace_of value_of fst snd published flat_map]. rewrite app_nil_r.
    destruct (iteration_result stream sig i END_OF_STREAM L) as [Hext _].
    destruct (iteration_published stream sig i END_OF_STREAM L) as [-> | ->];
      cbn [grows_to].
    + exact Hext.
    + split; [exact Hext |]. exists []. now rewrite app_nil_r.
  - destruct (iteration_result stream sig i rd L) as [Hext _].
    assert (Hrest :
      grows_to (result (snd (value_of (iteration stream sig i rd L))))
        (published
           (trace_of
              (match fst (value_of (iteration stream sig i rd L)) with
               | Continue =>
                   loop stream sig rest (S i)
                     (snd (value_of (iteration stream sig i rd L)))
               | Break => ret (snd (value_of (iteration stream sig i rd L)))
               end)))
        (result
           (value_of
              (match fst (value_of (iteration stream sig i rd L)) with
               | Continue =>
                   loop stream sig rest (S i)
                     (snd (value_of (iteration stream sig i rd L)))
               | Break => ret (snd (value_of (iteration stream sig i rd L)))
               end)))).
    { destruct (fst _); [apply IH |].
      cbn. exists []. now rewrite app_nil_r. }
    destruct (iteration_published stream sig i rd L) as [-> | ->]; cbn [app].
    + exact (grows_to_base _ _ _ _ Hext Hrest).
    + cbn [grows_to]. split; [exact Hext | exact Hrest].
Qed.

Lemma grows_to_later l :
  forall base s l2 final,
  grows_to base (l ++ s :: l2) final -> exists d, s = base ++ d.
Proof.
  induction l as [| x l IH]; intros base s l2 final; cbn [app grows_to].
  - now intros [H _].
  - intros [[d1 ->] H]. destruct (IH _ _ _ _ H) as [d2 ->].
    exists (d1 ++ d2). now rewrite app_assoc.
Qed.

Lemma grows_to_skip l1 :
  forall base l final,
  grows_to base (l1 ++ l) final -> exists base', grows_to base' l final.
Proof.
  induction l1 as [| x l1 IH]; intros base l final; cbn [app grows_to].
  - intros H. now exists base.
  - intros [_ H]. exact (IH _ _ _ H).
Qed.

Lemma readStream_grows reads dec stream sig cb :
  grows_to [] (published (trace_of (readStream reads dec stream sig cb)))
           (value_of (readStream reads dec stream sig cb)).
Proof.
  rewrite readStream_value, readStream_trace, published_app.
  assert (E : published
                (SetIdle true
                   :: error_events cb
                        (errorInRead
                           (value_of (loop stream sig reads 0 (locals0 dec))))
                   ++ complete_events cb
                        (result (value_of (loop stream sig reads 0 (locals0 dec)))))
              = []).
  { cbn [published flat_map app]. rewrite flat_map_app.
    unfold error_events, complete_events.
    destruct (truthy _), (onError cb), (onComplete cb); reflexivity. }
  rewrite E, app_nil_r. exact (loop_grows stream sig reads 0 (locals0 dec)).
Qed.

(** X8: whatever the reader delivers and whenever the signal is aborted,
    the texts [readStream] hands to [setResponse] only grow: of any two
    publications the later text extends the earlier one, and the text
    returned in the end extends every published text. What an observer
    has seen of the response is never taken back. *)
Theorem published_text_only_grows reads dec stream sig cb :
  (forall a s1 b s2 c,
     trace_of (readStream reads dec stream sig cb) =
       a ++ SetResponse s1 :: b ++ SetResponse s2 :: c ->
     exists d, s2 = s1 ++ d) /\
  (forall s,
     In (SetResponse s) (trace_of (readStream reads dec stream sig cb)) ->
     exists rest, value_of (readStream reads dec stream sig cb) = s ++ rest).
Proof.
  split.
  - intros a s1 b s2 c E.
    pose proof (readStream_grows reads dec stream sig cb) as H.
    rewrite E in H.
    rewrite published_app in H. cbn [published flat_map app] in H.
    fold (published (b ++ SetResponse s2 :: c)) in H.
    rewrite published_app in H. cbn [published flat_map app] in H.
    fold (published c) in H. fold (published b) in H. fold (published a) in H.
    apply grows_to_skip in H as [base' H]. cbn [grows_to] in H.
    destruct H as [_ H]. exact (grows_to_later _ _ _ _ _ H).
  - intros s. rewrite readStream_value, readStream_trace. intros H.
    apply in_app_or in H as [H | H]; [now apply loop_publishes_prefixes in H |].
    exfalso. destruct H as [H | H]; [discriminate H |].
    unfold error_events, complete_events in H.
    apply in_app_or in H as [H | H];
      [destruct (truthy _), (onError cb) | destruct (onComplete cb)]; cbn in H;
      repeat (destruct H as [H | H]; [discriminate H |]); destruct H.
Qed.

Lemma published_text_only_grows_witness :
  trace_of (readStream [chunk "pon"; chunk "g"] TextDecoder.new true None both) =
    [ReaderRead] ++ SetResponse (lit "pon")
      :: [ReaderRead] ++ SetResponse (lit "pong")
      :: [ReaderRead; SetResponse (lit "pong"); SetIdle true; OnComplete (lit "pong")] /\
  exists d, lit "pong" = lit "pon" ++ d.
Proof.
  split; [reflexivity |].
  exact (proj1 (published_text_only_grows [chunk "pon"; chunk "g"] TextDecoder.new
                  true None both)
           [ReaderRead] (lit "pon") [ReaderRead] (lit "pong")
           [ReaderRead; SetResponse (lit "pong"); SetIdle true; OnComplete (lit "pong")]
           eq_refl).
Defined.

Lemma iteration_never_aborted stream i rd L :
  filter is_release_lock (trace_of (iteration stream None i rd L)) = [] /\
  filter is_reader_cancel (trace_of (iteration stream None i rd L)) = [] /\
  filter is_set_error (trace_of (iteration stream None i rd L)) = [].
Proof.
  unfold iteration, try_block. unfold_m. cbn [aborted_at_top aborted_in_finally].
  destruct rd as [value done | name message]; [| repeat split; reflexivity].
  destruct (TextDecoder.decode _ _ _) as [decoded dec].
  destruct stream, (startsWith decoded SENTINEL); repeat split; reflexivity.
Qed.

Lemma loop_never_aborted stream reads :
  forall i L,
  filter is_release_lock (trace_of (loop stream None reads i L)) = [] /\
  filter is_reader_cancel (trace_of (loop stream None reads i L)) = [] /\
  filter is_set_error (trace_of (loop stream None reads i L)) = [].
Proof.
  induction reads as [| rd rest IH]; intros i L; cbn [loop];
    rewrite trace_bind, !filter_app.
  - destruct (iteration_never_aborted stream i END_OF_STREAM L) as (-> & -> & ->).
    repeat split; reflexivity.
  - destruct (iteration_never_aborted stream i rd L) as (-> & -> & ->).
    destruct (fst _); [apply IH | repeat split; reflexivity].
Qed.

(** X9: under a signal that is never aborted [readStream] never releases
    the reader's lock, and it cancels the reader only when it writes the
    error field, once: after a normal end-of-stream the reader is neither
    cancelled nor released. *)
Theorem reader_untouched_without_abort reads dec stream cb :
  filter is_release_lock (trace_of (readStream reads dec stream None cb)) = [] /\
  filter is_reader_cancel (trace_of (readStream reads dec stream None cb)) =
    map (fun _ => ReaderCancel)
        (filter is_set_error (trace_of (readStream reads dec stream None cb))) /\
  (length (filter is_set_error (trace_of (readStream reads dec stream None cb)))
   <= 1)%nat.
Proof.
  rewrite readStream_trace, !filter_app.
  destruct (loop_never_aborted stream reads 0 (locals0 dec)) as (-> & -> & ->).
  cbn [app filter is_release_lock is_reader_cancel is_set_error].
  rewrite !filter_app. unfold error_events, complete_events.
  destruct (truthy _), (onError cb), (onComplete cb); repeat split; cbn; lia.
Qed.

(** ** The whole call *)

Lemma readStream_filter (f : Event -> bool) reads dec stream sig cb :
  (forall e, is_loop_event e = true -> f e = false) ->
  filter f (trace_of (readStream reads dec stream sig cb)) =
  filter f
    (SetIdle true
       :: error_events cb
            (errorInRead (value_of (loop stream sig reads 0 (locals0 dec))))
       ++ complete_events cb
            (result (value_of (loop stream sig reads 0 (locals0 dec))))).
Proof.
  intros Hf. rewrite readStream_trace, filter_app.
  rewrite (filter_loop_events f); [reflexivity | exact Hf | apply loop_events].
Qed.

(** X10: in every call but one whose success reply has no body, on
    whichever path (fetch rejected, status not a success, sentinel, read
    error, completion, cancellation), the on-error callback, if
    supplied, is called exactly when the error field is written, with
    the text written, and that happens at most once per call. *)
Theorem on_error_mirrors_error_field ctx net stream sig cb :
  no_body net = false ->
  filter is_on_error (trace_of (send ctx net stream sig cb)) =
    (if onError cb
     then map as_on_error
            (filter is_set_error (trace_of (send ctx net stream sig cb)))
     else []) /\
  (length (filter is_set_error (trace_of (send ctx net stream sig cb))) <= 1)%nat.
Proof.
  intros Hnb. destruct (reaches_stream net) eqn:Hnet.
  - destruct net as [r | message]; [| discriminate Hnet]. cbn in Hnet, Hnb.
    rewrite Hnet in Hnb.
    destruct (body r) as [reads |] eqn:Hbody; [| discriminate Hnb].
    rewrite (send_ok_trace _ _ _ _ _ _ Hnet Hbody), !filter_app.
    rewrite (readStream_filter is_on_error) by now intros [].
    rewrite (readStream_filter is_set_error) by now intros [].
    cbn [app filter is_on_error is_set_error]. rewrite !filter_app.
    unfold error_events, complete_events.
    destruct (truthy _), (onError cb), (onComplete cb); split; cbn; lia || reflexivity.
  - rewrite (send_failed _ _ _ _ _ Hnet). cbn [trace_of snd].
    unfold fetch_error_events.
    destruct (onError cb); split; cbn; lia || reflexivity.
Qed.

Lemma on_error_mirrors_error_field_witness :
  no_body (Resolved (response_200 [chunk "Error: quota"])) = false /\
  filter is_on_error
    (trace_of (send None (Resolved (response_200 [chunk "Error: quota"]))
                 true None both)) =
  [OnError (lit " quota")].
Proof.
  split; [reflexivity |].
  exact (proj1 (on_error_mirrors_error_field None
                  (Resolved (response_200 [chunk "Error: quota"])) true None both
                  eq_refl)).
Defined.

Lemma lastCallId_kept tr :
  forall st, filter is_set_call_id tr = [] ->
  lastCallId (run st tr) = lastCallId st.
Proof.
  induction tr as [| e tr IH]; intros st H; [reflexivity |].
  cbn [run fold_left]. change (fold_left apply tr ?s) with (run s tr).
  cbn [filter] in H. destruct (is_set_call_id e) eqn:He; [discriminate H |].
  rewrite (IH _ H). now destruct e.
Qed.

(** X11: a call that gets a success status stores the [x-callId] header
    of the response as the correlation id, the empty string when the
    header is absent, whatever happens to the stream afterwards; a call
    that fails before the stream leaves the correlation id of the
    earlier call in place. *)
Theorem correlation_id_after_call ctx net stream sig cb st :
  lastCallId (run st (trace_of (send ctx net stream sig cb))) =
  match net with
  | Resolved r =>
      if ok r
      then match x_callId r with Some id => id | None => [] end
      else lastCallId st
  | FetchRejected _ => lastCallId st
  end.
Proof.
  destruct (reaches_stream net) eqn:Hnet.
  - destruct net as [r | message]; [| discriminate Hnet]. cbn in Hnet.
    rewrite Hnet. destruct (body r) as [reads |] eqn:Hbody.
    + rewrite (send_ok_trace _ _ _ _ _ _ Hnet Hbody), run_app.
      rewrite lastCallId_kept.
      * now destruct (x_callId r).
      * rewrite (readStream_filter is_set_call_id) by now intros [].
        cbn [filter is_set_call_id]. rewrite filter_app.
        unfold error_events, complete_events.
        destruct (truthy _), (onError cb), (onComplete cb); reflexivity.
    + rewrite (send_no_body _ _ _ _ _ Hnet Hbody). cbn [trace_of snd].
      rewrite run_app, lastCallId_kept.
      * now destruct (x_callId r).
      * unfold no_body_events, readStream_no_reader, fetch_error_events.
        destruct (aborted_at_top sig 0), stream, (onError cb); reflexivity.
  - rewrite (send_failed _ _ _ _ _ Hnet). cbn [trace_of snd].
    rewrite lastCallId_kept.
    + destruct net as [r | message]; [| reflexivity]. cbn in Hnet. now rewrite Hnet.
    + unfold fetch_error_events. destruct (onError cb); reflexivity.
Qed.

(** X12: what [send] resolves to is decided before the stream is read:
    [undefined] when [fetch] rejected, when the status was not a success
    and when the reply has no body; otherwise the reader in streaming
    mode, whatever the loop meets later (sentinel, read error,
    cancellation), and in non-streaming mode the text [readStream]
    returns. *)
Theorem send_resolves_to ctx net stream sig cb :
  value_of (send ctx net stream sig cb) =
  match net with
  | Resolved r =>
      if ok r then
        match body r with
        | Some reads =>
            if stream then Reader
            else Text (result (value_of (loop false sig reads 0
                                           (locals0 TextDecoder.new))))
        | None => Undefined
        end
      else Undefined
  | FetchRejected _ => Undefined
  end.
Proof.
  destruct (reaches_stream net) eqn:Hnet.
  - destruct net as [r | message]; [| discriminate Hnet]. cbn in Hnet.
    rewrite Hnet. destruct (body r) as [reads |] eqn:Hbody.
    + rewrite (send_ok_value _ _ _ _ _ _ Hnet Hbody).
      destruct stream; [reflexivity |]. now rewrite readStream_value.
    + now rewrite (send_no_body _ _ _ _ _ Hnet Hbody).
  - rewrite (send_failed _ _ _ _ _ Hnet).
    destruct net as [r | message]; [| reflexivity]. cbn in Hnet. now rewrite Hnet.
Qed.

(** X13: when [fetch] rejects, [send] resolves to [undefined] and its
    events are the reset, the request, the error field set to
    ["Error: Having trouble connecting to chat service. (" + message + ")"],
    on-error (if supplied) with that text and [console.error]: the body
    is never read, on-complete is not called, and the response field is
    left empty. *)
Theorem fetch_rejection_reported ctx message stream sig cb st :
  send ctx (FetchRejected message) stream sig cb =
    (Undefined,
     [SetResponse []; SetIdle false; Fetch (nullish ctx DEFAULT_URL);
      SetError (lit "Error: Having trouble connecting to chat service. ("
                  ++ message ++ lit ")")]
       ++ (if onError cb
           then [OnError (lit "Error: Having trouble connecting to chat service. ("
                            ++ message ++ lit ")")]
           else [])
       ++ [ConsoleError
             (lit "Error: Error in fetch. ("
                ++ (lit "Error: Having trouble connecting to chat service. ("
                      ++ message ++ lit ")")
                ++ lit ")")]) /\
  includes (error (run st (trace_of (send ctx (FetchRejected message) stream sig cb))))
           message /\
  response (run st (trace_of (send ctx (FetchRejected message) stream sig cb))) = [].
Proof.
  rewrite (send_failed ctx (FetchRejected message) stream sig cb eq_refl).
  unfold fetch_error_events, errorInFetch_of, connect_error_text.
  cbn [trace_of snd].
  split; [reflexivity |]. split.
  - exists (lit "Error: Having trouble connecting to chat service. ("), (lit ")").
    destruct (onError cb); reflexivity.
  - destruct (onError cb); reflexivity.
Qed.





(** ** The configuration and the URL *)

(** X15: the hook takes the configuration of the nearest provider
    when there is one, whatever its options; with no provider it takes
    its options; with neither it throws. The URL [send] posts to is the
    [url] of the configuration when it is a string and the production
    URL when it is [undefined] or [null]. Under a provider this holds of
    the [url] prop: left out, the prop's default is the production URL;
    [null], it reaches [send] as [null] and is replaced there. *)
Theorem fetch_url_configured ambient options props c net stream sig cb :
  (forall a, useLLM_context (Some a) options = inl a) /\
  (forall o, useLLM_context None (Some o) = inl o) /\
  (forall e, useLLM_context ambient options = inr e <->
             ambient = None /\ options = None /\ e = NO_CONTEXT) /\
  nth_error (trace_of (hook_send c net stream sig cb)) 2 =
    Some (Fetch (match url c with JVal u => u | _ => DEFAULT_URL end)) /\
  nth_error (trace_of (hook_send (LLMServiceProvider props) net stream sig cb)) 2 =
    Some (Fetch (match url props with JVal u => u | _ => DEFAULT_URL end)).
Proof.
  assert (Hurl : forall c',
    nth_error (trace_of (hook_send c' net stream sig cb)) 2 =
    Some (Fetch (match url c' with JVal u => u | _ => DEFAULT_URL end))).
  { intros c'. unfold hook_send.
    destruct (reaches_stream net) eqn:Hnet.
    - destruct net as [r | message]; [| discriminate Hnet]. cbn in Hnet.
      destruct (body r) as [reads |] eqn:Hbody.
      + rewrite (send_ok_trace _ _ _ _ _ _ Hnet Hbody). now destruct (url c').
      + rewrite (send_no_body _ _ _ _ _ Hnet Hbody). now destruct (url c').
    - rewrite (send_failed _ _ _ _ _ Hnet). now destruct (url c'). }
  repeat split.
  - destruct ambient; [discriminate |]. destruct options; [discriminate | reflexivity].
  - destruct ambient; [discriminate |]. destruct options; [discriminate | reflexivity].
  - destruct ambient; [discriminate |]. destruct options; [discriminate |].
    cbn in H. now injection H as <-.
  - intros (-> & -> & ->). reflexivity.
  - apply Hurl.
  - rewrite Hurl. cbn [LLMServiceProvider url]. now destruct (url props).
Qed.

Lemma fetch_url_configured_witness :
  nth_error
    (trace_of (hook_send
                 (LLMServiceProvider
                    {| project_id := Some (lit "p1"); customer := None;
                       url := JNull; agent := JUndefined |})
                 (FetchRejected (lit "offline")) true None both)) 2 =
  Some (Fetch DEFAULT_URL).
Proof.
  apply (fetch_url_configured None None
           {| project_id := Some (lit "p1"); customer := None;
              url := JNull; agent := JUndefined |}
           {| project_id := None; customer := None;
              url := JUndefined; agent := JUndefined |}
           (FetchRejected (lit "offline")) true None both).
Defined.

(** ** ASCII text *)

Lemma utf8_bytes_ascii bs :
  Forall (fun b => 0 <= b < 0x80) bs ->
  TextDecoder.utf8_bytes TextDecoder.utf8_new bs = (bs, TextDecoder.utf8_new).
Proof.
  induction 1 as [| b bs Hb _ IH]; [reflexivity |].
  cbn [TextDecoder.utf8_bytes].
  assert (E : TextDecoder.utf8_byte TextDecoder.utf8_new b = ([b], TextDecoder.utf8_new)).
  { unfold TextDecoder.utf8_byte, TextDecoder.utf8_lead, TextDecoder.between.
    cbn [TextDecoder.bytes_needed TextDecoder.utf8_new].
    change (0 =? 0) with true. cbn iota.
    replace (0 <=? b) with true by (symmetry; apply Z.leb_le; lia).
    replace (b <=? 127) with true by (symmetry; apply Z.leb_le; lia).
    reflexivity. }
  rewrite E, IH. reflexivity.
Qed.

Lemma byte_val_nonneg b : 0 <= TextDecoder.byte_val b.
Proof. unfold TextDecoder.byte_val. apply N2Z.is_nonneg. Qed.

Lemma chunk_text_ascii v :
  forallb is_ascii v = true ->
  chunk_text (Some v) = map TextDecoder.byte_val v.
Proof.
  intros Hv.
  assert (Hall : Forall (fun b => 0 <= b < 0x80) (map TextDecoder.byte_val v)).
  { apply Forall_map, Forall_forall. intros b Hb.
    rewrite forallb_forall in Hv. specialize (Hv b Hb).
    unfold is_ascii in Hv. apply Z.ltb_lt in Hv.
    pose proof (byte_val_nonneg b). lia. }
  unfold chunk_text, TextDecoder.decode.
  cbn [TextDecoder.do_not_flush TextDecoder.new].
  rewrite (utf8_bytes_ascii _ Hall).
  change (TextDecoder.utf8_end TextDecoder.utf8_new) with
    (@nil Z, TextDecoder.utf8_new).
  cbn [fst snd]. rewrite app_nil_r.
  assert (E16 : forall bs, Forall (fun b => 0 <= b < 0x80) bs ->
                           flat_map TextDecoder.utf16 bs = bs).
  { induction 1 as [| b bs Hb _ IH]; [reflexivity |].
    cbn [flat_map]. rewrite IH. unfold TextDecoder.utf16.
    replace (b <=? 65535) with true by (symmetry; apply Z.leb_le; lia).
    reflexivity. }
  destruct Hall as [| b bs Hb Hbs]; [reflexivity |].
  unfold TextDecoder.strip_bom.
  replace (b =? TextDecoder.BOM) with false
    by (symmetry; apply Z.eqb_neq; unfold TextDecoder.BOM; lia).
  cbn [fst]. apply E16. now constructor.
Qed.

(** X16: for a body of ASCII bytes the cutting into chunks does not
    matter: when every byte of every chunk is below 0x80, no chunk
    starts with the sentinel and the signal is never aborted,
    [readStream] returns the bytes of the whole body as code units, which
    is the text of the concatenated bytes decoded in one piece. *)
Theorem ascii_stream_is_exact chunks stream cb :
  forallb (forallb is_ascii) chunks = true ->
  forallb passes (chunks_script chunks) = true ->
  value_of (readStream (chunks_script chunks) TextDecoder.new stream None cb)
    = map TextDecoder.byte_val (concat chunks) /\
  value_of (readStream (chunks_script chunks) TextDecoder.new stream None cb)
    = chunk_text (Some (concat chunks)).
Proof.
  intros Hascii Hp.
  assert (E : value_of (readStream (chunks_script chunks) TextDecoder.new stream
                          None cb)
              = map TextDecoder.byte_val (concat chunks)).
  { rewrite (readStream_completed stream cb _ Hp). cbn [value_of fst].
    clear Hp. induction chunks as [| c chunks IH]; [reflexivity |].
    cbn [forallb] in Hascii. apply andb_prop in Hascii as [Hc Hrest].
    cbn [chunks_script map texts flat_map text_of concat].
    rewrite map_app, (chunk_text_ascii c Hc). f_equal. now apply IH. }
  split; [exact E |].
  rewrite E. symmetry. apply chunk_text_ascii.
  rewrite forallb_forall in Hascii. apply forallb_forall. intros b Hb.
  apply in_concat in Hb as (c & Hc & Hb).
  specialize (Hascii c Hc). rewrite forallb_forall in Hascii. now apply Hascii.
Qed.

Lemma ascii_stream_is_exact_witness :
  (forallb (forallb is_ascii) [bytes_of "pon"; bytes_of "g"] = true /\
   forallb passes (chunks_script [bytes_of "pon"; bytes_of "g"]) = true) /\
  value_of (readStream (chunks_script [bytes_of "pon"; bytes_of "g"])
              TextDecoder.new true None both) = lit "pong".
Proof.
  split; [split; reflexivity |].
  apply (ascii_stream_is_exact [bytes_of "pon"; bytes_of "g"] true both);
    reflexivity.
Defined.

(** * The first revision *)

Lemma strict_eq_empty s : negb (strict_eq s []) = truthy s.
Proof.
  unfold strict_eq. destruct (list_eq_dec Z.eq_dec s []) as [-> | H];
    [reflexivity |]. destruct s; [contradiction | reflexivity].
Qed.

Lemma v1_readStream_eq reads dec stream sig :
  V1.readStream reads dec stream sig =
  (result (value_of (V1.loop stream sig reads 0 (locals0 dec))),
   trace_of (V1.loop stream sig reads 0 (locals0 dec))
     ++ (if truthy (errorInRead (value_of (V1.loop stream sig reads 0 (locals0 dec))))
         then [SetError (errorInRead
                           (value_of (V1.loop stream sig reads 0 (locals0 dec))));
               ReaderCancel; SetIdle true]
         else [])).
Proof.
  unfold V1.readStream, locals0. unfold_m.
  destruct (V1.loop _ _ _ _ _) as [L tr]. cbn [fst snd].
  rewrite strict_eq_empty. destruct (truthy (errorInRead L)); cbn;
    now rewrite ?app_nil_r.
Qed.

Lemma v1_iteration_passes stream sig i rd L :
  passes rd = true ->
  aborted_at_top sig i = false ->
  aborted_in_finally sig i = false ->
  TextDecoder.do_not_flush (decoder L) = false ->
  exists d',
    TextDecoder.do_not_flush d' = false /\
    V1.iteration stream sig i rd L =
    ((Continue,
      {| decoder := d'; errorInRead := errorInRead L;
         result := result L ++ text_of rd |}),
     ReaderRead :: (if stream then [SetResponse (result L ++ text_of rd)] else [])).
Proof.
  intros Hp Htop Hfin Hd.
  destruct rd as [value [|] | name message]; try discriminate Hp.
  cbn [passes] in Hp. apply negb_true_iff in Hp.
  destruct (decode_resets (decoder L) value Hd) as [E1 F1].
  unfold V1.iteration, V1.try_block. rewrite Htop, Hfin.
  destruct (TextDecoder.decode (decoder L) value false) as [tested dec1].
  cbn [fst snd] in E1, F1. subst tested. rewrite Hp.
  destruct (decode_resets dec1 value F1) as [E2 F2].
  destruct (TextDecoder.decode dec1 value false) as [decoded dec2].
  cbn [fst snd] in E2, F2. subst decoded.
  exists dec2. split; [assumption |].
  destruct stream; reflexivity.
Qed.

Lemma v1_loop_passing stream sig pre rest :
  forall i L,
  forallb passes pre = true ->
  aborted_at_top sig (i + length pre) = false ->
  TextDecoder.do_not_flush (decoder L) = false ->
  exists d',
    TextDecoder.do_not_flush d' = false /\
    V1.loop stream sig (pre ++ rest) i L =
    (value_of (V1.loop stream sig rest (i + length pre)
                 {| decoder := d'; errorInRead := errorInRead L;
                    result := result L ++ texts pre |}),
     passing_events stream (result L) pre
       ++ trace_of (V1.loop stream sig rest (i + length pre)
                      {| decoder := d'; errorInRead := errorInRead L;
                         result := result L ++ texts pre |})).
Proof.
  induction pre as [| rd pre IH]; intros i L Hp Hab Hd.
  - exists (decoder L). split; [assumption |].
    cbn [length app texts flat_map passing_events].
    rewrite Nat.add_0_r, app_nil_r. destruct L.
    cbn [decoder errorInRead result]. now destruct (V1.loop _ _ _ _ _).
  - cbn [forallb] in Hp. apply andb_prop in Hp as [Hrd Hpre].
    cbn [length] in Hab.
    destruct (not_aborted_earlier _ _ _ Hab) as (Htop & Hfin & Hnext).
    destruct (v1_iteration_passes stream sig i rd L Hrd Htop Hfin Hd)
      as (d1 & Hd1 & Eit).
    destruct (IH (S i)
                {| decoder := d1; errorInRead := errorInRead L;
                   result := result L ++ text_of rd |} Hpre Hnext Hd1)
      as (d2 & Hd2 & Eloop).
    cbn [decoder errorInRead result] in Eloop.
    exists d2. split; [assumption |].
    cbn [app V1.loop]. unfold bind at 1. rewrite Eit. cbn [fst snd].
    rewrite Eloop. cbn [texts flat_map passing_events length].
    change (flat_map text_of pre) with (texts pre).
    rewrite Nat.add_succ_r. cbn [Nat.add app].
    rewrite <- !app_assoc. reflexivity.
Qed.

(** The first revision on a script of passing reads. *)
Lemma v1_readStream_completed stream pre :
  forallb passes pre = true ->
  V1.readStream pre TextDecoder.new stream None =
  (texts pre, passing_events stream [] pre ++ [ReaderRead; SetIdle true]).
Proof.
  intros Hp.
  destruct (v1_loop_passing stream None pre [] 0 (locals0 TextDecoder.new)
              Hp eq_refl eq_refl) as (d1 & Hd1 & E).
  rewrite app_nil_r in E.
  cbn [locals0 errorInRead result app Nat.add V1.loop] in E.
  destruct (decode_resets d1 None Hd1) as [Etext _].
  unfold V1.iteration, V1.try_block in E.
  cbn [aborted_at_top aborted_in_finally] in E.
  cbn [decoder result errorInRead END_OF_STREAM] in E.
  destruct (TextDecoder.decode d1 None false) as [decoded dec].
  cbn [fst] in Etext. subst decoded.
  change (chunk_text None) with (@nil Z) in E.
  change (startsWith [] SENTINEL) with false in E.
  rewrite v1_readStream_eq, E. unfold_m. cbn [fst snd truthy].
  now rewrite !app_nil_r.
Qed.

(** X17: on a body whose reads all pass and under a signal never
    aborted, the first revision of [readStream] and the current one
    return the same text, the texts of the chunks in order, and both
    leave idle true; the current one makes the [setResponse] calls the
    first one makes and then, in streaming mode, one more with the full
    text at end-of-stream. *)
Theorem revisions_agree_on_completed_stream stream cb pre st :
  forallb passes pre = true ->
  value_of (V1.readStream pre TextDecoder.new stream None) = texts pre /\
  value_of (readStream pre TextDecoder.new stream None cb) = texts pre /\
  filter is_set_response (trace_of (readStream pre TextDecoder.new stream None cb)) =
    filter is_set_response (trace_of (V1.readStream pre TextDecoder.new stream None))
      ++ (if stream then [SetResponse (texts pre)] else []) /\
  idle (run st (trace_of (V1.readStream pre TextDecoder.new stream None))) = true /\
  idle (run st (trace_of (readStream pre TextDecoder.new stream None cb))) = true.
Proof.
  intros Hp.
  rewrite (v1_readStream_completed stream pre Hp),
    (readStream_completed stream cb pre Hp).
  cbn [value_of trace_of fst snd].
  repeat split.
  - rewrite !filter_app. unfold complete_events.
    destruct stream, (onComplete cb); cbn [filter is_set_response app];
      rewrite ?app_nil_r; reflexivity.
  - rewrite run_app. reflexivity.
  - rewrite run_app. cbn [run fold_left].
    unfold complete_events. destruct (onComplete cb); reflexivity.
Qed.

Lemma revisions_agree_on_completed_stream_witness :
  forallb passes [chunk "pon"; chunk "g"] = true /\
  value_of (V1.readStream [chunk "pon"; chunk "g"] TextDecoder.new true None)
    = lit "pong" /\
  value_of (readStream [chunk "pon"; chunk "g"] TextDecoder.new true None both)
    = lit "pong".
Proof.
  split; [reflexivity |].
  destruct (revisions_agree_on_completed_stream true both [chunk "pon"; chunk "g"]
              initial eq_refl) as (H1 & H2 & _).
  split; [exact H1 | exact H2].
Defined.

(** X18: in the first revision a chunk whose own text starts with
    ["Error:"] is neither appended to the result nor published:
    [readStream] returns the text of the chunks before it and, when the
    text after the sentinel is not empty, sets the error field to it,
    cancels the reader and sets idle true. When that text is empty
    nothing at all is written, idle included. *)
Theorem v1_sentinel_chunk_dropped stream sig pre value done rest :
  forallb passes pre = true ->
  startsWith (chunk_text value) SENTINEL = true ->
  aborted_at_top sig (length pre) = false ->
  V1.readStream (pre ++ Fulfilled value done :: rest) TextDecoder.new stream sig =
  (texts pre,
   passing_events stream [] pre
     ++ ReaderRead
     :: (if aborted_in_finally sig (length pre) then [ReaderReleaseLock] else [])
     ++ (if truthy (substring 6 (chunk_text value))
         then [SetError (substring 6 (chunk_text value)); ReaderCancel; SetIdle true]
         else [])).
Proof.
  intros Hp Hs Hab.
  destruct (v1_loop_passing stream sig pre (Fulfilled value done :: rest) 0
              (locals0 TextDecoder.new) Hp Hab eq_refl) as (d1 & Hd1 & E).
  cbn [locals0 errorInRead result app Nat.add V1.loop] in E.
  destruct (decode_resets d1 value Hd1) as [E1 F1].
  unfold V1.iteration, V1.try_block in E. rewrite Hab in E.
  cbn [decoder result errorInRead] in E.
  destruct (TextDecoder.decode d1 value false) as [tested dec1].
  cbn [fst snd] in E1, F1. subst tested. rewrite Hs in E.
  destruct (decode_resets dec1 value F1) as [E2 _].
  destruct (TextDecoder.decode dec1 value false) as [decoded dec2].
  cbn [fst] in E2. subst decoded.
  rewrite v1_readStream_eq, E. unfold_m.
  destruct (aborted_in_finally sig (length pre)); cbn [fst snd errorInRead result];
    destruct (truthy _); norm_app; rewrite ?app_nil_r; reflexivity.
Qed.

Lemma v1_sentinel_chunk_dropped_witness :
  (forallb passes [chunk "pon"] = true /\
   startsWith (chunk_text (Some (bytes_of "Error: quota"))) SENTINEL = true /\
   aborted_at_top None (length [chunk "pon"]) = false) /\
  V1.readStream ([chunk "pon"] ++ Fulfilled (Some (bytes_of "Error: quota")) false
                   :: [chunk "g"])
    TextDecoder.new true None =
  (lit "pon",
   [ReaderRead; SetResponse (lit "pon"); ReaderRead;
    SetError (lit " quota"); ReaderCancel; SetIdle true]).
Proof.
  split; [repeat split; reflexivity |].
  apply (v1_sentinel_chunk_dropped true None [chunk "pon"]
           (Some (bytes_of "Error: quota")) false [chunk "g"]); reflexivity.
Defined.

Lemma v1_send_ok_trace ctx r reads stream sig :
  ok r = true ->
  body r = Some reads ->
  trace_of (V1.send ctx (Resolved r) stream sig) =
  [SetResponse []; SetIdle false; Fetch (nullish ctx DEFAULT_URL); SetIdle false]
    ++ trace_of (V1.readStream reads TextDecoder.new stream sig)
    ++ (if stream then []
        else [SetResponse (value_of (V1.readStream reads TextDecoder.new
                                       stream sig))]).
Proof.
  intros Hok Hbody. unfold V1.send. rewrite Hok, Hbody. cbn [negb].
  destruct stream; cbn [negb]; repeat rewrite trace_bind; cbn;
    now rewrite ?app_nil_r.
Qed.

(** X19: in the first revision a non-streaming call that gets a success
    status resolves to [undefined], and its last write to the response
    field is the text [readStream] returned: the response field holds
    the assembled text when the call is over, whatever the reader
    delivered. On a reply without a body the response field is left
    empty. *)
Theorem v1_non_streaming_publishes ctx r sig st :
  ok r = true ->
  value_of (V1.send ctx (Resolved r) false sig) = Undefined /\
  response (run st (trace_of (V1.send ctx (Resolved r) false sig))) =
    match body r with
    | Some reads => value_of (V1.readStream reads TextDecoder.new false sig)
    | None => []
    end.
Proof.
  intros Hok. destruct (body r) as [reads |] eqn:Hbody.
  - split.
    + unfold V1.send. rewrite Hok, Hbody. cbn [negb].
      repeat rewrite value_bind. reflexivity.
    + rewrite (v1_send_ok_trace _ _ _ _ _ Hok Hbody), !run_app. reflexivity.
  - unfold V1.send, V1.readStream_no_reader. rewrite Hok, Hbody. cbn [negb].
    destruct (aborted_at_top sig 0); split; reflexivity.
Qed.

Lemma v1_non_streaming_publishes_witness :
  ok (response_200 [chunk "pong"]) = true /\
  response (run initial
              (trace_of (V1.send None (Resolved (response_200 [chunk "pong"]))
                           false None))) = lit "pong".
Proof.
  split; [reflexivity |].
  apply (v1_non_streaming_publishes None (response_200 [chunk "pong"]) None initial).
  reflexivity.
Defined.

(** X20: in the first revision a read that rejects with an
    [AbortError] leaves the loop without any write to idle: a call whose
    stream ends that way is left with idle false, where the current
    revision sets idle true on every way out of the loop. *)
Theorem v1_idle_stuck_on_abort_error ctx r stream sig pre message rest st :
  ok r = true ->
  body r = Some (pre ++ Rejected (lit "AbortError") message :: rest) ->
  forallb passes pre = true ->
  aborted_at_top sig (length pre) = false ->
  idle (run st (trace_of (V1.send ctx (Resolved r) stream sig))) = false /\
  idle (run st (trace_of (send ctx (Resolved r) stream sig
                            {| onComplete := false; onError := false |}))) = true.
Proof.
  intros Hok Hbody Hp Hab. split.
  - rewrite (v1_send_ok_trace _ _ _ _ _ Hok Hbody).
    destruct (v1_loop_passing stream sig pre
                (Rejected (lit "AbortError") message :: rest) 0
                (locals0 TextDecoder.new) Hp Hab eq_refl) as (d1 & Hd1 & E).
    cbn [locals0 errorInRead result app Nat.add V1.loop] in E.
    unfold V1.iteration, V1.try_block in E. rewrite Hab in E.
    change (strict_eq (lit "AbortError") (lit "AbortError")) with true in E.
    rewrite v1_readStream_eq, E. unfold_m. cbn [fst snd errorInRead truthy].
    rewrite !run_app.
    assert (Hk : forall tr s,
               forallb is_loop_event tr = true -> idle (run s tr) = idle s).
    { induction tr as [| e tr IH]; intros s H; [reflexivity |].
      cbn in H. apply andb_prop in H as [He Htr].
      cbn [run fold_left]. change (fold_left apply tr ?x) with (run x tr).
      rewrite (IH _ Htr). now destruct e. }
    destruct stream, (aborted_in_finally sig (length pre));
      cbn [app run fold_left apply idle];
      change (fold_left apply ?tr ?x) with (run x tr);
      rewrite ?Hk by (rewrite ?forallb_app, ?passing_events_loop; reflexivity);
      try reflexivity.
    all: rewrite run_app, Hk by apply passing_events_loop; reflexivity.
  - rewrite (send_ok_trace _ _ _ _ _ _ Hok Hbody), run_app, readStream_trace, run_app.
    unfold error_events, complete_events. cbn [onComplete onError].
    destruct (truthy _); reflexivity.
Qed.

Lemma v1_idle_stuck_on_abort_error_witness :
  (ok (response_200 [chunk "pon"; Rejected (lit "AbortError") (lit "stopped")]) = true /\
   body (response_200 [chunk "pon"; Rejected (lit "AbortError") (lit "stopped")])
     = Some ([chunk "pon"] ++ Rejected (lit "AbortError") (lit "stopped") :: []) /\
   forallb passes [chunk "pon"] = true /\
   aborted_at_top (Some 2%nat) (length [chunk "pon"]) = false) /\
  idle (run initial
          (trace_of (V1.send None
                       (Resolved (response_200
                          [chunk "pon"; Rejected (lit "AbortError") (lit "stopped")]))
                       true (Some 2%nat)))) = false.
Proof.
  split; [repeat split; reflexivity |].
  apply (v1_idle_stuck_on_abort_error None
           (response_200 [chunk "pon"; Rejected (lit "AbortError") (lit "stopped")])
           true (Some 2%nat) [chunk "pon"] (lit "stopped") [] initial);
    reflexivity.
Defined.

(** * A reply without a body *)


